(** * Rounded annular sectors: the outline builder of zrender's sector shape

    A shallow embedding of the sector-outline builder ([buildPath]) and of its
    geometric kernel ([intersect], [computeCornerTangents],
    [calcCircleCenter], [normalizeCornerRadius]).

    Numbers.  A JavaScript [number] is idealised as a real number: the
    arithmetic, [Math.max], [Math.min], [Math.abs], [Math.sqrt] and the
    trigonometric functions are the ones of the real line.  Rounding, the
    infinities and NaN (hence absent optional numeric fields) are outside
    this model; a division by zero has the value the real library gives it.

    The sink.  The builder only ever appends commands to the path sink it is
    given, so the sink is modelled by the list of commands received so far. *)

From Stdlib Require Import Reals Lra Lia List Bool ZArith PeanoNat.
Import ListNotations.

Local Open Scope R_scope.

(** ** Numbers and the [Math] object *)

Definition Rgtb (x y : R) : bool := if Rgt_dec x y then true else false.
Definition Rltb (x y : R) : bool := if Rlt_dec x y then true else false.
Definition Rgeb (x y : R) : bool := if Rge_dec x y then true else false.
Definition Reqb (x y : R) : bool := if Req_dec_T x y then true else false.

Declare Scope js_scope.
Delimit Scope js_scope with js.
Notation "x >? y" := (Rgtb x y) (at level 70, no associativity) : js_scope.
Notation "x <? y" := (Rltb x y) (at level 70, no associativity) : js_scope.
Notation "x >=? y" := (Rgeb x y) (at level 70, no associativity) : js_scope.
Notation "x === y" := (Reqb x y) (at level 70, no associativity) : js_scope.
Local Open Scope js_scope.

Definition mathSin : R -> R := sin.
Definition mathCos : R -> R := cos.
Definition mathACos : R -> R := acos.
Definition mathAbs : R -> R := Rabs.
Definition mathSqrt : R -> R := sqrt.
Definition mathMax : R -> R -> R := Rmax.
Definition mathMin : R -> R -> R := Rmin.

(** [Math.atan2 y x]: the angle of the point [(x, y)], in [(-PI, PI]]. *)
Definition mathATan2 (y x : R) : R :=
  if x >? 0 then atan (y / x)
  else if x <? 0 then (if y >=? 0 then atan (y / x) + PI else atan (y / x) - PI)
  else if y >? 0 then PI / 2
  else if y <? 0 then - (PI / 2)
  else 0.

(** [x || 0] on a number: the falsy number is [0]. *)
Definition orZero (x : R) : R := if x === 0 then 0 else x.

(** [!!b] on an optional boolean field. *)
Definition truthy (b : option bool) : bool :=
  match b with Some true => true | _ => false end.

Definition PI2 : R := PI * 2.
Definition e : R := 1 / 10000.

(** ** The geometric kernel *)

Definition intersect (x0 y0 x1 y1 x2 y2 x3 y3 : R) : option (R * R) :=
  let dx10 := x1 - x0 in
  let dy10 := y1 - y0 in
  let dx32 := x3 - x2 in
  let dy32 := y3 - y2 in
  let t := dy32 * dx10 - dx32 * dy10 in
  if t * t <? e then None
  else
    let t := (dx32 * (y0 - y2) - dy32 * (x0 - x2)) / t in
    Some (x0 + t * dx10, y0 + t * dy10).

Record CornerTangents : Type := mkCornerTangents {
  ct_cx : R;
  ct_cy : R;
  ct_x0 : R;
  ct_y0 : R;
  ct_x1 : R;
  ct_y1 : R
}.

(** Perpendicular offset line of length [cr], and the fillet circle. *)
Definition computeCornerTangents
    (x0 y0 x1 y1 radius cr : R) (clockwise : bool) : CornerTangents :=
  let x01 := x0 - x1 in
  let y01 := y0 - y1 in
  let lo := (if clockwise then cr else - cr) / mathSqrt (x01 * x01 + y01 * y01) in
  let ox := lo * y01 in
  let oy := - lo * x01 in
  let x11 := x0 + ox in
  let y11 := y0 + oy in
  let x10 := x1 + ox in
  let y10 := y1 + oy in
  let x00 := (x11 + x10) / 2 in
  let y00 := (y11 + y10) / 2 in
  let dx := x10 - x11 in
  let dy := y10 - y11 in
  let d2 := dx * dx + dy * dy in
  let r := radius - cr in
  let s := x11 * y10 - x10 * y11 in
  let d := (if dy <? 0 then -1 else 1) * mathSqrt (mathMax 0 (r * r * d2 - s * s)) in
  let cx0 := (s * dy - dx * d) / d2 in
  let cy0 := (- s * dx - dy * d) / d2 in
  let cx1 := (s * dy + dx * d) / d2 in
  let cy1 := (- s * dx + dy * d) / d2 in
  let dx0 := cx0 - x00 in
  let dy0 := cy0 - y00 in
  let dx1 := cx1 - x00 in
  let dy1 := cy1 - y00 in
  (* pick the closer of the two intersection points *)
  let '(cx0, cy0) :=
    if dx0 * dx0 + dy0 * dy0 >? dx1 * dx1 + dy1 * dy1
    then (cx1, cy1) else (cx0, cy0) in
  {| ct_cx := cx0;
     ct_cy := cy0;
     ct_x0 := - ox;
     ct_y0 := - oy;
     ct_x1 := cx0 * (radius / r - 1);
     ct_y1 := cy0 * (radius / r - 1) |}.

Definition calcCircleCenter (x y r angle : R) : R * R :=
  (x + r * mathCos angle, y + r * mathSin angle).

(** ** Corner-radius specifications *)

(** One entry of a corner-radius specification: a number, or the string
    made of a number followed by [%]. *)
Inductive crValue : Type :=
| CrNum (v : R)
| CrPercent (n : R).

(** [number | string | (number | string)[]]; the array is given by its first
    entry and the rest, since the source reads [cr[0]] of every array that
    has neither 2, 3 nor 4 entries. *)
Inductive CornerRadius : Type :=
| CrScalar (v : crValue)
| CrArray (hd : crValue) (tl : list crValue).

(** Modelled from the spec: [parsePercent] of contain/text is not part of
    the sources at hand.  A value given as a string ending in [%] resolves
    to (numeric part / 100) * base; other values are plain numbers. *)
Definition parsePercent (value : crValue) (maxValue : R) : R :=
  match value with
  | CrPercent n => n / 100 * maxValue
  | CrNum v => v
  end.

(** [map] of core/util: the array map, whose callback receives the entry
    and its index. *)
Fixpoint mapFrom {A B : Type} (cb : A -> nat -> B) (idx : nat) (arr : list A) : list B :=
  match arr with
  | [] => []
  | x :: rest => cb x idx :: mapFrom cb (S idx) rest
  end.

Definition util_map {A B : Type} (arr : list A) (cb : A -> nat -> B) : list B :=
  mapFrom cb 0%nat arr.

(** [cr[i]] for an index inside the array. *)
Definition at_ (cr : list crValue) (i : nat) : crValue := nth i cr (CrNum 0).

Definition normalizeCornerRadius (cr : CornerRadius) (r0 r : R) : list R :=
  let arr :=
    match cr with
    | CrArray hd tl =>
        let cr := hd :: tl in
        let len := length cr in
        if (len =? 4)%nat then cr
        else if (len =? 3)%nat then cr ++ [at_ cr (len - 1)]
        else if (len =? 2)%nat then [at_ cr 0; at_ cr 0; at_ cr 1; at_ cr 1]
        else [at_ cr 0; at_ cr 0; CrNum 0; CrNum 0]
    | CrScalar cr => [cr; cr; cr; cr]
    end in
  util_map arr (fun cr idx => parsePercent cr (if (idx <? 2)%nat then r0 else r)).

(** ** Shapes and path commands *)

Record Shape : Type := mkShape {
  cx : R;
  cy : R;
  startAngle : R;
  endAngle : R;
  clockwise : option bool;
  r : R;
  r0 : R;
  cornerRadius : CornerRadius
}.

Inductive PathCommand : Type :=
| MoveTo (x y : R)
| LineTo (x y : R)
| Arc (cx cy radius startAngle endAngle : R) (anticlockwise : bool)
| ClosePath.

(** The call sites of the sink in [buildPath], in source order. *)
Inductive Site : Type :=
| PointMove          (* moveTo, the sector is a point *)
| CircleMove         (* moveTo, full circle *)
| CircleArc          (* arc, full outer circle *)
| HoleMove           (* moveTo, hole of the annulus *)
| HoleArc            (* arc, full inner circle *)
| CollapsedMove      (* moveTo, the sector is collapsed to a line *)
| OuterCornerMove    (* moveTo, outer ring with corners *)
| OuterMergedFillet  (* arc, the two outer corners merged *)
| OuterStartFillet   (* arc, outer start corner *)
| OuterRingArc       (* arc, outer ring between its two corners *)
| OuterEndFillet     (* arc, outer end corner *)
| OuterPlainMove     (* moveTo, outer ring without corners *)
| OuterPlainArc      (* arc, outer ring without corners *)
| InnerLine          (* lineTo, no inner ring *)
| InnerCornerLine    (* lineTo, inner ring with corners *)
| InnerMergedFillet  (* arc, the two inner corners merged *)
| InnerEndFillet     (* arc, inner end corner *)
| InnerRingArc       (* arc, inner ring between its two corners *)
| InnerStartFillet   (* arc, inner start corner *)
| InnerPlainArc      (* arc, inner ring without corners *)
| Close.             (* closePath *)

Definition isFilletSite (s : Site) : bool :=
  match s with
  | OuterMergedFillet | OuterStartFillet | OuterEndFillet
  | InnerMergedFillet | InnerEndFillet | InnerStartFillet => true
  | _ => false
  end.

Definition Emitted : Type := (Site * PathCommand)%type.

(** ** The builder *)

(** The effective outer and inner radii; [None] is the early return of the
    builder, before anything reached the sink. *)
Definition effectiveRadii (r r0 : R) : option (R * R) :=
  let radius := mathMax r 0 in
  let innerRadius := mathMax (orZero r0) 0 in
  let hasRadius := radius >? 0 in
  let hasInnerRadius := innerRadius >? 0 in
  if negb hasRadius && negb hasInnerRadius then None
  else
    (* use innerRadius as radius if no radius *)
    let '(radius, innerRadius) :=
      if negb hasRadius then (innerRadius, 0) else (radius, innerRadius) in
    (* swap, ensure that radius is always larger than innerRadius *)
    let '(radius, innerRadius) :=
      if innerRadius >? radius then (innerRadius, radius)
      else (radius, innerRadius) in
    Some (radius, innerRadius).

(** The first four entries of the resolved corner radii, in the order
    the builder binds them: [icrStart, icrEnd, ocrStart, ocrEnd]. *)
Definition cornerRadii (shape : Shape) : R * R * R * R :=
  let crs := normalizeCornerRadius (cornerRadius shape) (r0 shape) (r shape) in
  (nth 0 crs 0, nth 1 crs 0, nth 2 crs 0, nth 3 crs 0).

Definition halfRd (radius innerRadius : R) : R :=
  mathAbs (radius - innerRadius) / 2.

(** The maximal corner radii of the outer and of the inner ring, after the
    first clamp (against half the ring thickness). *)
Definition ocrMax (radius innerRadius ocrStart ocrEnd : R) : R :=
  let ocrs := mathMin (halfRd radius innerRadius) ocrStart in
  let ocre := mathMin (halfRd radius innerRadius) ocrEnd in
  mathMax ocrs ocre.

Definition icrMax (radius innerRadius icrStart icrEnd : R) : R :=
  let icrs := mathMin (halfRd radius innerRadius) icrStart in
  let icre := mathMin (halfRd radius innerRadius) icrEnd in
  mathMax icrs icre.

(** [(limitedOcrMax, limitedIcrMax)]: the second clamp, against the point
    where the two straight edges of the sector cross. *)
Definition limitedMax
    (radius innerRadius startAngle endAngle arc ocrMax icrMax : R) : R * R :=
  let limitedOcrMax := ocrMax in
  let limitedIcrMax := icrMax in
  let xrs := radius * mathCos startAngle in
  let yrs := radius * mathSin startAngle in
  let xire := innerRadius * mathCos endAngle in
  let yire := innerRadius * mathSin endAngle in
  (* draw corner radius *)
  if (ocrMax >? e) || (icrMax >? e) then
    let xre := radius * mathCos endAngle in
    let yre := radius * mathSin endAngle in
    let xirs := innerRadius * mathCos startAngle in
    let yirs := innerRadius * mathSin startAngle in
    (* restrict the max value of corner radius *)
    if arc <? PI then
      match intersect xrs yrs xirs yirs xre yre xire yire with
      | Some (it0, it1) =>
          let x0 := xrs - it0 in
          let y0 := yrs - it1 in
          let x1 := xre - it0 in
          let y1 := yre - it1 in
          let a := 1 / mathSin
            (mathACos ((x0 * x1 + y0 * y1)
                       / (mathSqrt (x0 * x0 + y0 * y0) * mathSqrt (x1 * x1 + y1 * y1))) / 2) in
          let b := mathSqrt (it0 * it0 + it1 * it1) in
          (mathMin ocrMax ((radius - b) / (a + 1)),
           mathMin icrMax ((innerRadius - b) / (a - 1)))
      | None => (limitedOcrMax, limitedIcrMax)
      end
    else (limitedOcrMax, limitedIcrMax)
  else (limitedOcrMax, limitedIcrMax).

(** The outer boundary of a sector that is neither a point nor a full
    circle.  The end points [xre], [yre], [xirs], [yirs] are assigned by the
    source only when a corner radius exceeds [e]; they are read only under
    [limitedOcrMax > e] or [limitedIcrMax > e], where they are assigned. *)
Definition outerRing
    (cx cy radius innerRadius startAngle endAngle : R) (clockwise : bool)
    (arc ocrStart ocrEnd ocrMax limitedOcrMax : R) : list Emitted :=
  let xrs := radius * mathCos startAngle in
  let yrs := radius * mathSin startAngle in
  let xire := innerRadius * mathCos endAngle in
  let yire := innerRadius * mathSin endAngle in
  let xre := radius * mathCos endAngle in
  let yre := radius * mathSin endAngle in
  let xirs := innerRadius * mathCos startAngle in
  let yirs := innerRadius * mathSin startAngle in
  (* the sector is collapsed to a line *)
  if negb (arc >? e) then
    [(CollapsedMove, MoveTo (cx + xrs) (cy + yrs))]
  (* the outer ring has corners *)
  else if limitedOcrMax >? e then
    let crStart := mathMin ocrStart limitedOcrMax in
    let crEnd := mathMin ocrEnd limitedOcrMax in
    let ct0 := computeCornerTangents xirs yirs xrs yrs radius crStart clockwise in
    let ct1 := computeCornerTangents xre yre xire yire radius crEnd clockwise in
    (OuterCornerMove, MoveTo (cx + ct_cx ct0 + ct_x0 ct0) (cy + ct_cy ct0 + ct_y0 ct0))
    ::
    (* Have the corners merged? *)
    (if limitedOcrMax <? ocrMax then
       [(OuterMergedFillet,
         Arc (cx + ct_cx ct0) (cy + ct_cy ct0) limitedOcrMax
             (mathATan2 (ct_y0 ct0) (ct_x0 ct0)) (mathATan2 (ct_y0 ct1) (ct_x0 ct1))
             (negb clockwise))]
     else
       (* draw the two corners and the ring *)
       [(OuterStartFillet,
         Arc (cx + ct_cx ct0) (cy + ct_cy ct0) crStart
             (mathATan2 (ct_y0 ct0) (ct_x0 ct0)) (mathATan2 (ct_y1 ct0) (ct_x1 ct0))
             (negb clockwise));
        (OuterRingArc,
         Arc cx cy radius
             (mathATan2 (ct_cy ct0 + ct_y1 ct0) (ct_cx ct0 + ct_x1 ct0))
             (mathATan2 (ct_cy ct1 + ct_y1 ct1) (ct_cx ct1 + ct_x1 ct1))
             (negb clockwise));
        (OuterEndFillet,
         Arc (cx + ct_cx ct1) (cy + ct_cy ct1) crEnd
             (mathATan2 (ct_y1 ct1) (ct_x1 ct1)) (mathATan2 (ct_y0 ct1) (ct_x0 ct1))
             (negb clockwise))])
  (* the outer ring is a circular arc *)
  else
    [(OuterPlainMove, MoveTo (cx + xrs) (cy + yrs));
     (OuterPlainArc, Arc cx cy radius startAngle endAngle (negb clockwise))].

(** The way back along the inner boundary. *)
Definition innerRing
    (cx cy radius innerRadius startAngle endAngle : R) (clockwise : bool)
    (arc icrStart icrEnd icrMax limitedIcrMax : R) : list Emitted :=
  let xrs := radius * mathCos startAngle in
  let yrs := radius * mathSin startAngle in
  let xire := innerRadius * mathCos endAngle in
  let yire := innerRadius * mathSin endAngle in
  let xre := radius * mathCos endAngle in
  let yre := radius * mathSin endAngle in
  let xirs := innerRadius * mathCos startAngle in
  let yirs := innerRadius * mathSin startAngle in
  (* no inner ring, is a circular sector *)
  if negb (innerRadius >? e) || negb (arc >? e) then
    [(InnerLine, LineTo (cx + xire) (cy + yire))]
  (* the inner ring has corners *)
  else if limitedIcrMax >? e then
    let crStart := mathMin icrStart limitedIcrMax in
    let crEnd := mathMin icrEnd limitedIcrMax in
    let ct0 := computeCornerTangents xire yire xre yre innerRadius (- crEnd) clockwise in
    let ct1 := computeCornerTangents xrs yrs xirs yirs innerRadius (- crStart) clockwise in
    (InnerCornerLine, LineTo (cx + ct_cx ct0 + ct_x0 ct0) (cy + ct_cy ct0 + ct_y0 ct0))
    ::
    (* Have the corners merged? *)
    (if limitedIcrMax <? icrMax then
       [(InnerMergedFillet,
         Arc (cx + ct_cx ct0) (cy + ct_cy ct0) limitedIcrMax
             (mathATan2 (ct_y0 ct0) (ct_x0 ct0)) (mathATan2 (ct_y0 ct1) (ct_x0 ct1))
             (negb clockwise))]
     (* draw the two corners and the ring *)
     else
       [(InnerEndFillet,
         Arc (cx + ct_cx ct0) (cy + ct_cy ct0) crEnd
             (mathATan2 (ct_y0 ct0) (ct_x0 ct0)) (mathATan2 (ct_y1 ct0) (ct_x1 ct0))
             (negb clockwise));
        (InnerRingArc,
         Arc cx cy innerRadius
             (mathATan2 (ct_cy ct0 + ct_y1 ct0) (ct_cx ct0 + ct_x1 ct0))
             (mathATan2 (ct_cy ct1 + ct_y1 ct1) (ct_cx ct1 + ct_x1 ct1))
             clockwise);
        (InnerStartFillet,
         Arc (cx + ct_cx ct1) (cy + ct_cy ct1) crStart
             (mathATan2 (ct_y1 ct1) (ct_x1 ct1)) (mathATan2 (ct_y0 ct1) (ct_x0 ct1))
             (negb clockwise))])
  (* the inner ring is just a circular arc *)
  else
    [(InnerPlainArc, Arc cx cy innerRadius endAngle startAngle clockwise)].

Section Builder.

(** [normalizeArcAngles] of core/PathProxy is not part of the sources at hand:
    the builder is taken over any such function.  It receives the two angles
    and the [anticlockwise] flag and yields the two angles it leaves in the
    array. *)
Variable normalizeArcAngles : R * R -> bool -> R * R.

(** The sweep [arc] of the builder. *)
Definition arc (startAngle endAngle : R) (clockwise : bool) : R :=
  if startAngle === endAngle then 0
  else
    let tmpAngles := normalizeArcAngles (startAngle, endAngle) (negb clockwise) in
    mathAbs (fst tmpAngles - snd tmpAngles).

(** What one call of the builder hands to the sink, each command with the
    call site that issued it. *)
Definition emit (shape : Shape) : list Emitted :=
  match effectiveRadii (r shape) (r0 shape) with
  | None => []
  | Some (radius, innerRadius) =>
      let clockwise := truthy (clockwise shape) in
      let startAngle := startAngle shape in
      let endAngle := endAngle shape in
      let cx := cx shape in
      let cy := cy shape in
      let arc := arc startAngle endAngle clockwise in
      let '(icrStart, icrEnd, ocrStart, ocrEnd) := cornerRadii shape in
      (* is a point *)
      (if negb (radius >? e) then
         [(PointMove, MoveTo cx cy)]
       (* is a circle or annulus *)
       else if arc >? PI2 - e then
         let '(x, y) := calcCircleCenter cx cy radius startAngle in
         [(CircleMove, MoveTo x y);
          (CircleArc, Arc cx cy radius startAngle endAngle (negb clockwise))]
         ++
         (if innerRadius >? e then
            let '(x, y) := calcCircleCenter cx cy innerRadius endAngle in
            [(HoleMove, MoveTo x y);
             (HoleArc, Arc cx cy innerRadius endAngle startAngle clockwise)]
          else [])
       (* is a circular or annular sector *)
       else
         let ocrMax := ocrMax radius innerRadius ocrStart ocrEnd in
         let icrMax := icrMax radius innerRadius icrStart icrEnd in
         let '(limitedOcrMax, limitedIcrMax) :=
           limitedMax radius innerRadius startAngle endAngle arc ocrMax icrMax in
         outerRing cx cy radius innerRadius startAngle endAngle clockwise
                   arc ocrStart ocrEnd ocrMax limitedOcrMax
         ++
         innerRing cx cy radius innerRadius startAngle endAngle clockwise
                   arc icrStart icrEnd icrMax limitedIcrMax)
      ++ [(Close, ClosePath)]
  end.

(** The builder: the commands of [emit], appended to the sink in order. *)
Definition buildPath (ctx : list PathCommand) (shape : Shape) : list PathCommand :=
  ctx ++ List.map snd (emit shape).

End Builder.

(** ** The angle normaliser *)

(** Truncation toward zero of a real number. *)
Definition truncate (x : R) : Z :=
  if x >=? 0 then Int_part x else (- Int_part (- x))%Z.

(** The remainder of [radian] by a full turn, with the sign of [radian]. *)
Definition modPI2 (radian : R) : R :=
  radian - PI2 * IZR (truncate (radian / PI2)).

(** Modelled from the spec: [normalizeArcAngles] of core/PathProxy is not
    part of the sources at hand.  Both angles are normalised into the
    canonical range of the chosen winding: the start angle is brought into
    one turn from 0, the end angle follows by the same shift and is then
    brought within one turn of the start, after it when the sweep is measured
    clockwise and before it otherwise; angles a full turn or more apart in
    the winding's sense are exactly one turn apart afterwards. *)
Definition normalizeArcAngles (angles : R * R) (anticlockwise : bool) : R * R :=
  let newStartAngle := modPI2 (fst angles) in
  let newStartAngle :=
    if newStartAngle <? 0 then newStartAngle + PI2 else newStartAngle in
  let delta := newStartAngle - fst angles in
  let newEndAngle := snd angles + delta in
  let newEndAngle :=
    if negb anticlockwise && (newEndAngle - newStartAngle >=? PI2) then
      newStartAngle + PI2
    else if anticlockwise && (newStartAngle - newEndAngle >=? PI2) then
      newStartAngle - PI2
    else if negb anticlockwise && (newStartAngle >? newEndAngle) then
      newStartAngle + (PI2 - modPI2 (newStartAngle - newEndAngle))
    else if anticlockwise && (newStartAngle <? newEndAngle) then
      newStartAngle - (PI2 - modPI2 (newEndAngle - newStartAngle))
    else newEndAngle in
  (newStartAngle, newEndAngle).

(** What the builder needs of an angle normaliser for its sweep to be the
    angle between the two straight edges: the two angles it leaves are as far
    apart as the two it was given, up to whole turns, or else exactly one turn
    apart. *)
Definition keepsSweep (nAA : R * R -> bool -> R * R) : Prop :=
  forall (s e' : R) (anticlockwise : bool),
    (exists k : Z,
        snd (nAA (s, e') anticlockwise) - fst (nAA (s, e') anticlockwise)
        = e' - s + IZR k * PI2)
    \/ Rabs (fst (nAA (s, e') anticlockwise) - snd (nAA (s, e') anticlockwise)) = PI2.

(** ** Reading an emitted sequence *)

Definition arcRadius (c : PathCommand) : option R :=
  match c with
  | Arc _ _ radius _ _ _ => Some radius
  | _ => None
  end.

Definition isArc (c : PathCommand) : bool :=
  match c with Arc _ _ _ _ _ _ => true | _ => false end.

Definition isMoveTo (c : PathCommand) : bool :=
  match c with MoveTo _ _ => true | _ => false end.

Definition isLineTo (c : PathCommand) : bool :=
  match c with LineTo _ _ => true | _ => false end.

(** The two sites that draw the outer ring itself, at the outer radius. *)
Definition isOuterRingSite (s : Site) : bool :=
  match s with
  | OuterRingArc | OuterPlainArc => true
  | _ => false
  end.

(** A command issued at a fillet site is an arc of radius at most [h]. *)
Definition filletWithin (h : R) (c : Emitted) : Prop :=
  if isFilletSite (fst c)
  then match snd c with
       | Arc _ _ radius _ _ _ => radius <= h
       | _ => False
       end
  else True.

Definition percentFreeValue (v : crValue) : bool :=
  match v with CrNum _ => true | CrPercent _ => false end.

(** No entry of the specification is a percentage. *)
Definition percentFree (cr : CornerRadius) : bool :=
  match cr with
  | CrScalar v => percentFreeValue v
  | CrArray hd tl => percentFreeValue hd && forallb percentFreeValue tl
  end.

(** The descriptor with [r] and [r0] exchanged. *)
Definition swapRadii (shape : Shape) : Shape :=
  {| cx := cx shape; cy := cy shape;
     startAngle := startAngle shape; endAngle := endAngle shape;
     clockwise := clockwise shape;
     r := r0 shape; r0 := r shape;
     cornerRadius := cornerRadius shape |}.

(** ** Some descriptors *)

(** Both radii zero. *)
Definition zeroRadii : Shape :=
  mkShape 3 4 0 1 None 0 0 (CrScalar (CrNum 0)).

(** Both radii negative. *)
Definition negativeRadii : Shape :=
  mkShape 3 4 0 1 None (-1) (-2) (CrScalar (CrNum 0)).

(** A positive outer radius below [e]. *)
Definition tinyRadius : Shape :=
  mkShape 3 4 0 1 None (1 / 20000) 0 (CrScalar (CrNum 0)).

(** Start and end angle equal. *)
Definition sameAngle : Shape :=
  mkShape 3 4 1 1 None 10 4 (CrScalar (CrNum 2)).

(** A full turn, [r = 10], [r0 = 4]. *)
Definition fullTurn : Shape :=
  mkShape 0 0 0 (PI * 2) (Some true) 10 4 (CrScalar (CrNum 0)).

(** A sweep of exactly [2 PI - e]. *)
Definition almostFullTurn : Shape :=
  mkShape 0 0 0 (PI2 - e) (Some true) 1 (1 / 2) (CrScalar (CrNum 0)).

(** A quarter turn of radius 100 with corner radius 50 requested. *)
Definition quarterTurn : Shape :=
  mkShape 0 0 0 (PI / 2) (Some true) 100 0 (CrScalar (CrNum 50)).

(** A sweep of exactly [e], radius 100, corner radius 50 requested. *)
Definition sliver : Shape :=
  mkShape 0 0 0 e (Some true) 100 0 (CrScalar (CrNum 50)).

(** A half turn given with inverted radii and a percentage corner radius. *)
Definition invertedPercent : Shape :=
  mkShape 0 0 0 PI (Some true) 5 10 (CrScalar (CrPercent 10)).

(** ** Reading the kernel and the path *)

(** The discriminant under the square root of [computeCornerTangents]:
    [r * r * d2 - s * s] in the source's names. *)
Definition cornerDiscriminant (x0 y0 x1 y1 radius cr : R) (clockwise : bool) : R :=
  let x01 := x0 - x1 in
  let y01 := y0 - y1 in
  let lo := (if clockwise then cr else - cr) / mathSqrt (x01 * x01 + y01 * y01) in
  let ox := lo * y01 in
  let oy := - lo * x01 in
  let x11 := x0 + ox in
  let y11 := y0 + oy in
  let x10 := x1 + ox in
  let y10 := y1 + oy in
  let dx := x10 - x11 in
  let dy := y10 - y11 in
  let d2 := dx * dx + dy * dy in
  let r := radius - cr in
  let s := x11 * y10 - x10 * y11 in
  r * r * d2 - s * s.



Definition isInnerCornerFillet (s : Site) : bool :=
  match s with InnerEndFillet | InnerStartFillet => true | _ => false end.

(** A command issued at one of the sites [sel] is an arc whose centre lies at
    the distance [dist radius] from the point [(cx, cy)], [radius] being the
    radius of the arc. *)
Definition centredAtDistance
    (cx cy : R) (dist : R -> R) (sel : Site -> bool) (c : Emitted) : Prop :=
  if sel (fst c)
  then match snd c with
       | Arc fx fy radius _ _ _ =>
           (fx - cx) * (fx - cx) + (fy - cy) * (fy - cy)
           = dist radius * dist radius
       | _ => False
       end
  else True.

(** The fillet of radius 2 at the outer start corner of the ring between the
    radii 4 and 10, at the angle 1. *)
Definition sampleCorner : CornerTangents :=
  computeCornerTangents (4 * cos 1) (4 * sin 1) (10 * cos 1) (10 * sin 1) 10 2 true.

(** The sites of the two branches that draw corners. *)
Definition isCornerSite (s : Site) : bool :=
  match s with
  | OuterCornerMove | OuterMergedFillet | OuterStartFillet | OuterRingArc
  | OuterEndFillet | InnerCornerLine | InnerMergedFillet | InnerEndFillet
  | InnerRingArc | InnerStartFillet => true
  | _ => false
  end.


(** A command moved by [(dx, dy)], and a descriptor whose centre is moved. *)
Definition translate (dx dy : R) (c : PathCommand) : PathCommand :=
  match c with
  | MoveTo x y => MoveTo (x + dx) (y + dy)
  | LineTo x y => LineTo (x + dx) (y + dy)
  | Arc cx cy radius startAngle endAngle anticlockwise =>
      Arc (cx + dx) (cy + dy) radius startAngle endAngle anticlockwise
  | ClosePath => ClosePath
  end.

Definition moveCentre (dx dy : R) (shape : Shape) : Shape :=
  {| cx := cx shape + dx; cy := cy shape + dy;
     startAngle := startAngle shape; endAngle := endAngle shape;
     clockwise := clockwise shape;
     r := r shape; r0 := r0 shape;
     cornerRadius := cornerRadius shape |}.

(** ** The view box of the SVG reader *)

(** [RectLike] of core/BoundingRect: the four numbers of a rectangle. *)
Record RectLike : Type := mkRectLike {
  rect_x : R;
  rect_y : R;
  rect_width : R;
  rect_height : R
}.

Record ViewBoxTransform : Type := mkViewBoxTransform {
  vt_scale : R;
  vt_x : R;
  vt_y : R
}.

Definition makeViewBoxTransform (viewBoxRect : RectLike) (width height : R)
  : ViewBoxTransform :=
  let scaleX := width / rect_width viewBoxRect in
  let scaleY := height / rect_height viewBoxRect in
  let scale := mathMin scaleX scaleY in
  (* preserveAspectRatio 'xMidYMid' *)
  {| vt_scale := scale;
     vt_x := - (rect_x viewBoxRect + rect_width viewBoxRect / 2) * scale + width / 2;
     vt_y := - (rect_y viewBoxRect + rect_height viewBoxRect / 2) * scale + height / 2 |}.

(** * Properties *)

(** ** Comparisons *)

Lemma Rgtb_true (x y : R) : (x >? y) = true <-> x > y.
Proof. unfold Rgtb. destruct (Rgt_dec x y); split; intros; try easy. Qed.

Lemma Rgtb_false (x y : R) : (x >? y) = false <-> x <= y.
Proof. unfold Rgtb. destruct (Rgt_dec x y); split; intros; try easy; lra. Qed.

Lemma Rltb_true (x y : R) : (x <? y) = true <-> x < y.
Proof. unfold Rltb. destruct (Rlt_dec x y); split; intros; try easy. Qed.

Lemma Rltb_false (x y : R) : (x <? y) = false <-> y <= x.
Proof. unfold Rltb. destruct (Rlt_dec x y); split; intros; try easy; lra. Qed.

Lemma Rgeb_true (x y : R) : (x >=? y) = true <-> x >= y.
Proof. unfold Rgeb. destruct (Rge_dec x y); split; intros; try easy. Qed.

Lemma Rgeb_false (x y : R) : (x >=? y) = false <-> x < y.
Proof. unfold Rgeb. destruct (Rge_dec x y); split; intros; try easy; lra. Qed.

Lemma Reqb_true (x y : R) : (x === y) = true <-> x = y.
Proof. unfold Reqb. destruct (Req_dec_T x y); split; intros; try easy. Qed.

Lemma Reqb_false (x y : R) : (x === y) = false <-> x <> y.
Proof. unfold Reqb. destruct (Req_dec_T x y); split; intros; try easy. Qed.

Lemma Reqb_refl (x : R) : (x === x) = true.
Proof. now apply Reqb_true. Qed.

(** Decide one comparison of the goal, keeping the fact it decides. *)
Ltac cmp_case :=
  match goal with
  | |- context [Rgtb ?a ?b] =>
      let H := fresh "Hgt" in
      destruct (Rgtb a b) eqn:H;
      [apply Rgtb_true in H | apply Rgtb_false in H]
  | |- context [Rltb ?a ?b] =>
      let H := fresh "Hlt" in
      destruct (Rltb a b) eqn:H;
      [apply Rltb_true in H | apply Rltb_false in H]
  | |- context [Rgeb ?a ?b] =>
      let H := fresh "Hge" in
      destruct (Rgeb a b) eqn:H;
      [apply Rgeb_true in H | apply Rgeb_false in H]
  end.

(** Unfold the [Math] functions of a goal about an order down to [lra]. *)
Ltac math_lra :=
  unfold halfRd, mathMax, mathMin, mathAbs, Rmax, Rmin, Rabs, e in *;
  repeat match goal with
         | |- context [Rle_dec ?a ?b] => destruct (Rle_dec a b)
         | |- context [Rcase_abs ?a] => destruct (Rcase_abs a)
         | H : context [Rle_dec ?a ?b] |- _ => destruct (Rle_dec a b)
         | H : context [Rcase_abs ?a] |- _ => destruct (Rcase_abs a)
         end;
  try lra.

Lemma orZero_id (x : R) : orZero x = x.
Proof.
  unfold orZero. destruct (x === 0) eqn:H; [apply Reqb_true in H; now subst | reflexivity].
Qed.

Lemma e_pos : 0 < e.
Proof. unfold e. lra. Qed.

Lemma PI_gt_2 : 2 < PI.
Proof. pose proof PI2_1. lra. Qed.

Lemma e_lt_full_turn : e < PI2 - e.
Proof. pose proof PI_gt_2. unfold PI2, e. lra. Qed.

(** ** The effective radii *)

Lemma effectiveRadii_None (r r0 : R) :
  effectiveRadii r r0 = None <-> mathMax r 0 <= 0 /\ mathMax r0 0 <= 0.
Proof.
  unfold effectiveRadii. rewrite orZero_id.
  destruct (mathMax r 0 >? 0) eqn:H1; destruct (mathMax r0 0 >? 0) eqn:H2; simpl;
    try apply Rgtb_true in H1; try apply Rgtb_true in H2;
    try apply Rgtb_false in H1; try apply Rgtb_false in H2;
    repeat cmp_case; split; intros H; try discriminate; try tauto; lra.
Qed.

Lemma effectiveRadii_Some (r r0 radius innerRadius : R) :
  effectiveRadii r r0 = Some (radius, innerRadius) ->
  radius = Rmax (Rmax r 0) (Rmax r0 0) /\
  innerRadius = Rmin (Rmax r 0) (Rmax r0 0) /\
  0 < radius /\ 0 <= innerRadius <= radius.
Proof.
  unfold effectiveRadii. rewrite orZero_id.
  destruct (mathMax r 0 >? 0) eqn:H1; destruct (mathMax r0 0 >? 0) eqn:H2; simpl;
    try apply Rgtb_true in H1; try apply Rgtb_true in H2;
    try apply Rgtb_false in H1; try apply Rgtb_false in H2;
    try discriminate; cmp_case; intros H; inversion H; subst; clear H;
    math_lra.
Qed.

Lemma effectiveRadii_sym (r r0 : R) : effectiveRadii r r0 = effectiveRadii r0 r.
Proof.
  destruct (effectiveRadii r r0) as [[a b]|] eqn:E1;
    destruct (effectiveRadii r0 r) as [[c d]|] eqn:E2; try reflexivity.
  - apply effectiveRadii_Some in E1. apply effectiveRadii_Some in E2.
    destruct E1 as (-> & -> & _). destruct E2 as (-> & -> & _).
    f_equal. f_equal; [apply Rmax_comm | apply Rmin_comm].
  - apply effectiveRadii_Some in E1. apply effectiveRadii_None in E2.
    exfalso. destruct E1 as (-> & _ & H & _). revert H E2. math_lra.
  - apply effectiveRadii_None in E1. apply effectiveRadii_Some in E2.
    exfalso. destruct E2 as (-> & _ & H & _). revert H E1. math_lra.
Qed.

(** The half thickness of the ring the builder works with never exceeds the
    one of the radii as given. *)
Lemma halfRd_le_requested (r r0 radius innerRadius : R) :
  effectiveRadii r r0 = Some (radius, innerRadius) ->
  halfRd radius innerRadius <= Rabs (r - r0) / 2.
Proof.
  intros H. apply effectiveRadii_Some in H. destruct H as (-> & -> & _).
  math_lra.
Qed.

(** ** The point and the empty path *)

Section BuilderFacts.

Variable nAA : R * R -> bool -> R * R.

(** A positive effective outer radius of at most [e] gives the two commands
    of a point. *)
Lemma point_branch (shape : Shape) (radius innerRadius : R) :
  effectiveRadii (r shape) (r0 shape) = Some (radius, innerRadius) ->
  radius <= e ->
  emit nAA shape = [(PointMove, MoveTo (cx shape) (cy shape)); (Close, ClosePath)].
Proof.
  intros E Hr. unfold emit. rewrite E.
  destruct (cornerRadii shape) as [[[a b] c] d].
  apply Rgtb_false in Hr. rewrite Hr. reflexivity.
Qed.

Lemma early_return (shape : Shape) :
  r shape <= 0 -> r0 shape <= 0 -> emit nAA shape = [].
Proof.
  intros H H0. unfold emit.
  assert (E : effectiveRadii (r shape) (r0 shape) = None).
  { apply effectiveRadii_None. split; math_lra. }
  now rewrite E.
Qed.


(** C3, as amended: with [r = 0] and [r0 = 0] the builder returns before it
    reaches the sink, which is left as it was: no command is emitted. *)
Theorem zero_radii_emit_nothing (ctx : list PathCommand) (shape : Shape) :
  r shape = 0 -> r0 shape = 0 -> buildPath nAA ctx shape = ctx.
Proof.
  intros H H0. unfold buildPath.
  rewrite early_return by lra. simpl. apply app_nil_r.
Qed.

(** C4, as amended: when both [r] and [r0] are at most 0 (rather than at
    most 1e-4) the builder emits no path command at all. *)
Theorem nonpositive_radii_emit_nothing (ctx : list PathCommand) (shape : Shape) :
  r shape <= 0 -> r0 shape <= 0 -> buildPath nAA ctx shape = ctx.
Proof.
  intros H H0. unfold buildPath.
  rewrite early_return by assumption. simpl. apply app_nil_r.
Qed.

(** ** The shape of every emitted path *)

Lemma outerRing_starts_with_move
    (cx cy radius innerRadius startAngle endAngle : R) (clockwise : bool)
    (arc ocrStart ocrEnd ocrMax limitedOcrMax : R) :
  exists x y rest,
    outerRing cx cy radius innerRadius startAngle endAngle clockwise
              arc ocrStart ocrEnd ocrMax limitedOcrMax
    = (fst (hd (Close, ClosePath)
               (outerRing cx cy radius innerRadius startAngle endAngle clockwise
                          arc ocrStart ocrEnd ocrMax limitedOcrMax)),
       MoveTo x y) :: rest.
Proof.
  unfold outerRing.
  destruct (arc >? e); simpl; [destruct (limitedOcrMax >? e); simpl |];
    do 3 eexists; reflexivity.
Qed.

Lemma emit_starts_with_move_ends_with_close (shape : Shape) (radius innerRadius : R) :
  effectiveRadii (r shape) (r0 shape) = Some (radius, innerRadius) ->
  exists x y mid,
    List.map snd (emit nAA shape) = MoveTo x y :: mid ++ [ClosePath].
Proof.
  intros E. unfold emit. rewrite E.
  destruct (cornerRadii shape) as [[[icrStart icrEnd] ocrStart] ocrEnd].
  destruct (radius >? e); simpl.
  - destruct (arc nAA (startAngle shape) (endAngle shape) (truthy (clockwise shape)) >? PI2 - e).
    + simpl. do 2 eexists. rewrite map_app. simpl.
      eexists (_ :: _). simpl. reflexivity.
    + destruct (limitedMax _ _ _ _ _ _ _) as [lo li].
      match goal with
      | |- context [outerRing ?a ?b ?c ?d ?f ?g ?h ?i ?j ?k ?l ?m] =>
          destruct (outerRing_starts_with_move a b c d f g h i j k l m)
            as (x & y & rest & ->)
      end.
      simpl. exists x, y. rewrite map_app. simpl.
      eexists. reflexivity.
  - exists (cx shape), (cy shape), []. reflexivity.
Qed.

(** C10: the emitted sequence is empty, and that exactly when
    [max(r,0) <= 0] and [max(r0,0) <= 0], or else it begins with a MoveTo and
    ends with a ClosePath. *)
Theorem path_empty_or_move_to_close (shape : Shape) :
  (buildPath nAA [] shape = []
   /\ mathMax (r shape) 0 <= 0 /\ mathMax (r0 shape) 0 <= 0)
  \/
  (~ (mathMax (r shape) 0 <= 0 /\ mathMax (r0 shape) 0 <= 0)
   /\ exists x y mid, buildPath nAA [] shape = MoveTo x y :: mid ++ [ClosePath]).
Proof.
  unfold buildPath. simpl.
  destruct (effectiveRadii (r shape) (r0 shape)) as [[radius innerRadius]|] eqn:E.
  - right. split.
    + intros H. apply effectiveRadii_None in H. congruence.
    + eapply emit_starts_with_move_ends_with_close; eassumption.
  - left. pose proof E as E'. apply effectiveRadii_None in E'.
    unfold emit. rewrite E. tauto.
Qed.

(** ** Zero sweep and full turn *)

Lemma arc_same_angle (a : R) (clockwise : bool) : arc nAA a a clockwise = 0.
Proof. unfold arc. now rewrite Reqb_refl. Qed.

(** C8: with [startAngle = endAngle] and an effective outer radius above
    1e-4, the builder emits one MoveTo, at the outer-radius point of the start
    angle, no Arc at all, and closes the path; what lies between is the
    straight line back to the inner-radius point. *)
Theorem zero_sweep_collapses
    (ctx : list PathCommand) (shape : Shape) (radius innerRadius : R) :
  effectiveRadii (r shape) (r0 shape) = Some (radius, innerRadius) ->
  radius > e ->
  startAngle shape = endAngle shape ->
  let out :=
    [MoveTo (cx shape + radius * cos (startAngle shape))
            (cy shape + radius * sin (startAngle shape));
     LineTo (cx shape + innerRadius * cos (endAngle shape))
            (cy shape + innerRadius * sin (endAngle shape));
     ClosePath] in
  buildPath nAA ctx shape = ctx ++ out
  /\ filter isMoveTo out
     = [MoveTo (cx shape + radius * cos (startAngle shape))
               (cy shape + radius * sin (startAngle shape))]
  /\ filter isArc out = []
  /\ last out (MoveTo 0 0) = ClosePath.
Proof.
  intros E Hr Ha out. subst out. repeat split.
  unfold buildPath, emit. rewrite E. f_equal.
  destruct (cornerRadii shape) as [[[icrStart icrEnd] ocrStart] ocrEnd].
  apply Rgtb_true in Hr. rewrite Hr. simpl.
  rewrite <- Ha, arc_same_angle.
  assert (H0 : (0 >? PI2 - e) = false).
  { apply Rgtb_false. pose proof e_lt_full_turn. pose proof e_pos. lra. }
  rewrite H0.
  destruct (limitedMax _ _ _ _ _ _ _) as [lo li].
  unfold outerRing, innerRing.
  assert (H1 : (0 >? e) = false) by (apply Rgtb_false; pose proof e_pos; lra).
  rewrite H1. simpl. rewrite orb_true_r. reflexivity.
Qed.

(** C7, as amended: when the sweep is strictly greater than 2 PI - 1e-4 and
    [r > 1e-4], the builder emits a MoveTo at the outer-radius point of the
    start angle and the full outer circle with [anticlockwise = !clockwise];
    then, exactly when the inner radius exceeds 1e-4, a MoveTo at the
    inner-radius point of the end angle and the full inner circle with the
    opposite winding; then ClosePath.  No LineTo is emitted. *)
Theorem full_turn_annulus
    (ctx : list PathCommand) (shape : Shape) (radius innerRadius : R) :
  effectiveRadii (r shape) (r0 shape) = Some (radius, innerRadius) ->
  r shape > e ->
  arc nAA (startAngle shape) (endAngle shape) (truthy (clockwise shape)) > PI2 - e ->
  let out :=
    [MoveTo (cx shape + radius * cos (startAngle shape))
            (cy shape + radius * sin (startAngle shape));
     Arc (cx shape) (cy shape) radius (startAngle shape) (endAngle shape)
         (negb (truthy (clockwise shape)))]
    ++ (if innerRadius >? e then
          [MoveTo (cx shape + innerRadius * cos (endAngle shape))
                  (cy shape + innerRadius * sin (endAngle shape));
           Arc (cx shape) (cy shape) innerRadius (endAngle shape) (startAngle shape)
               (truthy (clockwise shape))]
        else [])
    ++ [ClosePath] in
  buildPath nAA ctx shape = ctx ++ out
  /\ filter isLineTo out = [].
Proof.
  intros E Hr Ha out. split.
  - unfold buildPath, emit. rewrite E. f_equal.
    destruct (cornerRadii shape) as [[[icrStart icrEnd] ocrStart] ocrEnd].
    assert (Hrad : radius > e).
    { apply effectiveRadii_Some in E. destruct E as (-> & _). revert Hr. math_lra. }
    apply Rgtb_true in Hrad. rewrite Hrad. simpl.
    apply Rgtb_true in Ha. rewrite Ha. simpl.
    unfold out. destruct (innerRadius >? e); reflexivity.
  - unfold out. destruct (innerRadius >? e); reflexivity.
Qed.

End BuilderFacts.

(** ** The clamps on the corner radii *)

Lemma ocrMax_le_halfRd (radius innerRadius ocrStart ocrEnd : R) :
  ocrMax radius innerRadius ocrStart ocrEnd <= halfRd radius innerRadius.
Proof.
  unfold ocrMax. generalize (halfRd radius innerRadius). intros h. math_lra.
Qed.

Lemma icrMax_le_halfRd (radius innerRadius icrStart icrEnd : R) :
  icrMax radius innerRadius icrStart icrEnd <= halfRd radius innerRadius.
Proof.
  unfold icrMax. generalize (halfRd radius innerRadius). intros h. math_lra.
Qed.

(** The second clamp only ever lowers the two maxima. *)
Lemma limitedMax_le (radius innerRadius startAngle endAngle arc om im lo li : R) :
  limitedMax radius innerRadius startAngle endAngle arc om im = (lo, li) ->
  lo <= om /\ li <= im.
Proof.
  unfold limitedMax.
  destruct ((om >? e) || (im >? e)); [destruct (arc <? PI) |];
    try (intros H; inversion H; subst; lra).
  destruct (intersect _ _ _ _ _ _ _ _) as [[it0 it1]|];
    intros H; inversion H; subst; try lra.
  split; apply Rmin_l.
Qed.

Lemma outerRing_fillets_within
    (h cx cy radius innerRadius startAngle endAngle : R) (clockwise : bool)
    (arc ocrStart ocrEnd om lo : R) :
  lo <= h ->
  Forall (filletWithin h)
         (outerRing cx cy radius innerRadius startAngle endAngle clockwise
                    arc ocrStart ocrEnd om lo).
Proof.
  intros Hlo. unfold outerRing.
  destruct (arc >? e); simpl;
    [destruct (lo >? e); [destruct (lo <? om) |] |];
    repeat (apply Forall_cons; [unfold filletWithin; simpl |]);
    try apply Forall_nil; trivial;
    try exact Hlo; (eapply Rle_trans; [apply Rmin_r | exact Hlo]).
Qed.

Lemma innerRing_fillets_within
    (h cx cy radius innerRadius startAngle endAngle : R) (clockwise : bool)
    (arc icrStart icrEnd im li : R) :
  li <= h ->
  Forall (filletWithin h)
         (innerRing cx cy radius innerRadius startAngle endAngle clockwise
                    arc icrStart icrEnd im li).
Proof.
  intros Hli. unfold innerRing.
  destruct (negb (innerRadius >? e) || negb (arc >? e)); simpl;
    [| destruct (li >? e); [destruct (li <? im) |]];
    repeat (apply Forall_cons; [unfold filletWithin; simpl |]);
    try apply Forall_nil; trivial;
    try exact Hli; (eapply Rle_trans; [apply Rmin_r | exact Hli]).
Qed.

Section ClampFacts.

Variable nAA : R * R -> bool -> R * R.

(** C1: every arc the builder issues for a fillet has a radius of at most
    [|r - r0| / 2], whatever the sweep and the corner radii requested; and
    each requested corner radius, once clamped against the half thickness of
    the ring, is at most [|r - r0| / 2]. *)
Theorem fillet_radius_clamped (shape : Shape) :
  Forall (filletWithin (Rabs (r shape - r0 shape) / 2)) (emit nAA shape)
  /\ match effectiveRadii (r shape) (r0 shape) with
     | Some (radius, innerRadius) =>
         forall requested : R,
           mathMin (halfRd radius innerRadius) requested
           <= Rabs (r shape - r0 shape) / 2
     | None => True
     end.
Proof.
  unfold emit.
  destruct (effectiveRadii (r shape) (r0 shape)) as [[radius innerRadius]|] eqn:E;
    [| split; [constructor | exact I]].
  pose proof (halfRd_le_requested _ _ _ _ E) as Hh.
  split.
  - destruct (cornerRadii shape) as [[[icrStart icrEnd] ocrStart] ocrEnd].
    apply Forall_app. split; [| repeat constructor].
    destruct (radius >? e); simpl; [| repeat constructor].
    destruct (arc nAA (startAngle shape) (endAngle shape) (truthy (clockwise shape)) >? PI2 - e).
    + simpl. destruct (innerRadius >? e); repeat constructor.
    + destruct (limitedMax _ _ _ _ _ _ _) as [lo li] eqn:L.
      apply limitedMax_le in L. destruct L as [Lo Li].
      pose proof (ocrMax_le_halfRd radius innerRadius ocrStart ocrEnd).
      pose proof (icrMax_le_halfRd radius innerRadius icrStart icrEnd).
      apply Forall_app. split.
      * apply outerRing_fillets_within. lra.
      * apply innerRing_fillets_within. lra.
  - intros requested. eapply Rle_trans; [apply Rmin_l | exact Hh].
Qed.

End ClampFacts.

Lemma intersect_None_iff (x0 y0 x1 y1 x2 y2 x3 y3 : R) :
  intersect x0 y0 x1 y1 x2 y2 x3 y3 = None
  <-> (let t := (y3 - y2) * (x1 - x0) - (x3 - x2) * (y1 - y0) in t * t < e).
Proof.
  unfold intersect. cbv zeta.
  destruct (_ <? e) eqn:H.
  - apply Rltb_true in H. tauto.
  - apply Rltb_false in H. split; [discriminate | intros; lra].
Qed.

(** When the primitive finds no crossing, the second clamp is skipped. *)
Lemma limitedMax_parallel (radius innerRadius startAngle endAngle arc om im : R) :
  intersect (radius * cos startAngle) (radius * sin startAngle)
            (innerRadius * cos startAngle) (innerRadius * sin startAngle)
            (radius * cos endAngle) (radius * sin endAngle)
            (innerRadius * cos endAngle) (innerRadius * sin endAngle) = None ->
  limitedMax radius innerRadius startAngle endAngle arc om im = (om, im).
Proof.
  intros H. unfold limitedMax, mathCos, mathSin. rewrite H.
  destruct ((om >? e) || (im >? e)); [destruct (arc <? PI) |]; reflexivity.
Qed.

(** C9: the line-intersection primitive yields no point exactly when the
    square of the determinant of the two direction vectors is below 1e-4; and
    when it yields none for the two straight edges of the sector, the second
    clamp is skipped: [limitedOcrMax = ocrMax] and [limitedIcrMax = icrMax].
    Both are total functions: nothing is raised. *)
Theorem parallel_edges_skip_restriction :
  (forall x0 y0 x1 y1 x2 y2 x3 y3 : R,
      intersect x0 y0 x1 y1 x2 y2 x3 y3 = None
      <-> (let t := (y3 - y2) * (x1 - x0) - (x3 - x2) * (y1 - y0) in t * t < e))
  /\
  (forall radius innerRadius startAngle endAngle arc om im : R,
      intersect (radius * cos startAngle) (radius * sin startAngle)
                (innerRadius * cos startAngle) (innerRadius * sin startAngle)
                (radius * cos endAngle) (radius * sin endAngle)
                (innerRadius * cos endAngle) (innerRadius * sin endAngle) = None ->
      limitedMax radius innerRadius startAngle endAngle arc om im = (om, im)).
Proof.
  split.
  - exact intersect_None_iff.
  - intros radius innerRadius sa ea a om im. apply limitedMax_parallel.
Qed.

(** ** Corner-radius shorthands *)

(** C6: the resolver yields four radii, bound by the builder in the order
    inner-start, inner-end, outer-start, outer-end; a scalar [v] stands for
    [v,v,v,v], [[a]] for [a,a,0,0], [[a,b]] for [a,a,b,b], [[a,b,c]] for
    [a,b,c,c] and [[a,b,c,d]] for itself; an entry [N%] resolves to
    [(N/100) * r0] in the first two slots and to [(N/100) * r] in the last
    two, and any other entry is the number it is. *)
Theorem corner_radius_resolution (r0 r : R) (v a b c d : crValue) :
  let inner x := parsePercent x r0 in
  let outer x := parsePercent x r in
  normalizeCornerRadius (CrScalar v) r0 r = [inner v; inner v; outer v; outer v]
  /\ normalizeCornerRadius (CrArray a []) r0 r = [inner a; inner a; 0; 0]
  /\ normalizeCornerRadius (CrArray a [b]) r0 r = [inner a; inner a; outer b; outer b]
  /\ normalizeCornerRadius (CrArray a [b; c]) r0 r = [inner a; inner b; outer c; outer c]
  /\ normalizeCornerRadius (CrArray a [b; c; d]) r0 r = [inner a; inner b; outer c; outer d]
  /\ (forall n base : R, parsePercent (CrPercent n) base = n / 100 * base)
  /\ (forall x base : R, parsePercent (CrNum x) base = x)
  /\ (forall cx cy sa ea cw,
         cornerRadii (mkShape cx cy sa ea cw r r0 (CrArray a [b; c; d]))
         = (inner a, inner b, outer c, outer d)).
Proof.
  repeat split.
Qed.

(** ** Exchanging the two radii *)

Lemma mapFrom_percent_free (f g : nat -> R) (arr : list crValue) (i : nat) :
  forallb percentFreeValue arr = true ->
  mapFrom (fun cr idx => parsePercent cr (f idx)) i arr
  = mapFrom (fun cr idx => parsePercent cr (g idx)) i arr.
Proof.
  revert i. induction arr as [|x arr IH]; intros i H; simpl in *; [reflexivity |].
  apply andb_prop in H. destruct H as [Hx Harr].
  rewrite (IH (S i) Harr). destruct x; [reflexivity | discriminate].
Qed.

Lemma normalizeCornerRadius_percent_free (cr : CornerRadius) (a b a' b' : R) :
  percentFree cr = true ->
  normalizeCornerRadius cr a b = normalizeCornerRadius cr a' b'.
Proof.
  intros H. unfold normalizeCornerRadius, util_map.
  apply mapFrom_percent_free.
  destruct cr as [v | x tl]; simpl in H.
  - simpl. now rewrite H.
  - apply andb_prop in H. destruct H as [Hx Htl].
    destruct tl as [|y [|z [|w [|u tl]]]]; unfold at_; simpl in *;
      repeat match goal with
             | H : _ && _ = true |- _ => apply andb_prop in H; destruct H
             end;
      repeat match goal with
             | H : ?p = true |- context [?p] => rewrite H
             end; reflexivity.
Qed.

(** When no corner radius is a percentage, exchanging [r] and [r0] changes
    nothing of what is emitted. *)
Lemma swapRadii_percent_free (nAA : R * R -> bool -> R * R) (shape : Shape) :
  percentFree (cornerRadius shape) = true ->
  emit nAA (swapRadii shape) = emit nAA shape.
Proof.
  intros H. unfold emit, cornerRadii. simpl.
  rewrite (effectiveRadii_sym (r0 shape) (r shape)).
  rewrite (normalizeCornerRadius_percent_free _ (r shape) (r0 shape) (r0 shape) (r shape) H).
  reflexivity.
Qed.

(** C5, as amended: for every descriptor whose corner-radius specification
    has no percentage entry, the builder emits for the descriptor with [r] and
    [r0] exchanged exactly the commands it emits for the descriptor itself. *)
Theorem swapped_radii_same_path
    (nAA : R * R -> bool -> R * R) (ctx : list PathCommand) (shape : Shape) :
  percentFree (cornerRadius shape) = true ->
  buildPath nAA ctx (swapRadii shape) = buildPath nAA ctx shape.
Proof.
  intros H. unfold buildPath. now rewrite swapRadii_percent_free.
Qed.

(** ** Evaluating the angle normaliser *)

Lemma truncate_0 : truncate 0 = 0%Z.
Proof.
  unfold truncate.
  assert (H : (0 >=? 0) = true) by (apply Rgeb_true; lra).
  rewrite H. symmetry. apply Int_part_spec. simpl. lra.
Qed.

Lemma modPI2_0 : modPI2 0 = 0.
Proof.
  unfold modPI2. replace (0 / PI2) with 0 by (unfold Rdiv; ring).
  rewrite truncate_0. simpl. ring.
Qed.

(** Measured clockwise from the start angle 0, an end angle between 0 and a
    full turn is left as it is. *)
Lemma normalizeArcAngles_from_0 (b : R) :
  0 <= b < PI2 -> normalizeArcAngles (0, b) false = (0, b).
Proof.
  intros [H0 H1]. unfold normalizeArcAngles. cbn [fst snd negb andb].
  rewrite modPI2_0.
  assert (E0 : (0 <? 0) = false) by (apply Rltb_false; lra).
  rewrite E0.
  replace (b + (0 - 0)) with b by ring.
  assert (E1 : (b - 0 >=? PI2) = false) by (apply Rgeb_false; lra).
  assert (E2 : (0 >? b) = false) by (apply Rgtb_false; lra).
  rewrite E1, E2. reflexivity.
Qed.

Lemma normalizeArcAngles_full_turn :
  normalizeArcAngles (0, PI * 2) false = (0, 0 + PI2).
Proof.
  unfold normalizeArcAngles. cbn [fst snd negb andb].
  rewrite modPI2_0.
  assert (E0 : (0 <? 0) = false) by (apply Rltb_false; lra).
  rewrite E0.
  assert (E1 : (PI * 2 + (0 - 0) - 0 >=? PI2) = true)
    by (apply Rgeb_true; unfold PI2; lra).
  rewrite E1. reflexivity.
Qed.

Lemma arc_from_0 (b : R) :
  0 < b < PI2 -> arc normalizeArcAngles 0 b true = b.
Proof.
  intros [H0 H1]. unfold arc.
  assert (E : (0 === b) = false) by (apply Reqb_false; lra).
  rewrite E. simpl negb. rewrite normalizeArcAngles_from_0 by lra.
  simpl. unfold mathAbs. rewrite Rabs_left; lra.
Qed.

Lemma arc_full_turn : arc normalizeArcAngles 0 (PI * 2) true = PI2.
Proof.
  pose proof PI_gt_2 as Hpi. unfold arc.
  assert (E : (0 === PI * 2) = false) by (apply Reqb_false; lra).
  rewrite E. simpl negb. rewrite normalizeArcAngles_full_turn.
  simpl. unfold mathAbs, PI2. rewrite Rabs_left; lra.
Qed.

(** The modelled normaliser keeps the sweep. *)
Lemma normalizeArcAngles_keepsSweep : keepsSweep normalizeArcAngles.
Proof.
  intros s e' acw. unfold normalizeArcAngles. cbn [fst snd].
  pose proof PI_gt_2 as Hpi.
  set (ns := if modPI2 s <? 0 then modPI2 s + PI2 else modPI2 s).
  set (ne := e' + (ns - s)).
  assert (Hd : ne - ns = e' - s) by (unfold ne; ring).
  destruct acw; cbn [negb andb].
  - destruct (ns - ne >=? PI2).
    + right. replace (ns - (ns - PI2)) with PI2 by ring.
      apply Rabs_pos_eq. unfold PI2. lra.
    + destruct (ns <? ne).
      * left. exists (- 1 - truncate ((ne - ns) / PI2))%Z.
        unfold modPI2. rewrite minus_IZR. rewrite <- Hd. simpl. ring.
      * left. exists 0%Z. rewrite <- Hd. simpl. ring.
  - destruct (ne - ns >=? PI2).
    + right. replace (ns - (ns + PI2)) with (- PI2) by ring.
      rewrite Rabs_Ropp. apply Rabs_pos_eq. unfold PI2. lra.
    + destruct (ns >? ne).
      * left. exists (1 + truncate ((ns - ne) / PI2))%Z.
        unfold modPI2. rewrite plus_IZR. rewrite <- Hd. simpl. ring.
      * left. exists 0%Z. rewrite <- Hd. simpl. ring.
Qed.


(** ** The branches of the sector *)

Section Branches.

Variables (cx cy radius innerRadius startAngle endAngle : R) (clockwise : bool).
Variables (arc crStart crEnd crMax limited : R).

Lemma outerRing_collapsed :
  arc <= e ->
  outerRing cx cy radius innerRadius startAngle endAngle clockwise
            arc crStart crEnd crMax limited
  = [(CollapsedMove,
      MoveTo (cx + radius * cos startAngle) (cy + radius * sin startAngle))].
Proof.
  intros H. apply Rgtb_false in H. unfold outerRing. now rewrite H.
Qed.

Lemma outerRing_plain :
  arc > e -> limited <= e ->
  outerRing cx cy radius innerRadius startAngle endAngle clockwise
            arc crStart crEnd crMax limited
  = [(OuterPlainMove,
      MoveTo (cx + radius * cos startAngle) (cy + radius * sin startAngle));
     (OuterPlainArc, Arc cx cy radius startAngle endAngle (negb clockwise))].
Proof.
  intros H H'. apply Rgtb_true in H. apply Rgtb_false in H'.
  unfold outerRing. now rewrite H, H'.
Qed.

Lemma outerRing_merged :
  arc > e -> limited > e -> limited < crMax ->
  let ct0 := computeCornerTangents
               (innerRadius * cos startAngle) (innerRadius * sin startAngle)
               (radius * cos startAngle) (radius * sin startAngle)
               radius (mathMin crStart limited) clockwise in
  let ct1 := computeCornerTangents
               (radius * cos endAngle) (radius * sin endAngle)
               (innerRadius * cos endAngle) (innerRadius * sin endAngle)
               radius (mathMin crEnd limited) clockwise in
  outerRing cx cy radius innerRadius startAngle endAngle clockwise
            arc crStart crEnd crMax limited
  = [(OuterCornerMove,
      MoveTo (cx + ct_cx ct0 + ct_x0 ct0) (cy + ct_cy ct0 + ct_y0 ct0));
     (OuterMergedFillet,
      Arc (cx + ct_cx ct0) (cy + ct_cy ct0) limited
          (mathATan2 (ct_y0 ct0) (ct_x0 ct0)) (mathATan2 (ct_y0 ct1) (ct_x0 ct1))
          (negb clockwise))].
Proof.
  intros H H' H''. apply Rgtb_true in H, H'. apply Rltb_true in H''.
  unfold outerRing. now rewrite H, H', H''.
Qed.

Lemma outerRing_corners :
  arc > e -> limited > e -> crMax <= limited ->
  let ct0 := computeCornerTangents
               (innerRadius * cos startAngle) (innerRadius * sin startAngle)
               (radius * cos startAngle) (radius * sin startAngle)
               radius (mathMin crStart limited) clockwise in
  let ct1 := computeCornerTangents
               (radius * cos endAngle) (radius * sin endAngle)
               (innerRadius * cos endAngle) (innerRadius * sin endAngle)
               radius (mathMin crEnd limited) clockwise in
  outerRing cx cy radius innerRadius startAngle endAngle clockwise
            arc crStart crEnd crMax limited
  = [(OuterCornerMove,
      MoveTo (cx + ct_cx ct0 + ct_x0 ct0) (cy + ct_cy ct0 + ct_y0 ct0));
     (OuterStartFillet,
      Arc (cx + ct_cx ct0) (cy + ct_cy ct0) (mathMin crStart limited)
          (mathATan2 (ct_y0 ct0) (ct_x0 ct0)) (mathATan2 (ct_y1 ct0) (ct_x1 ct0))
          (negb clockwise));
     (OuterRingArc,
      Arc cx cy radius
          (mathATan2 (ct_cy ct0 + ct_y1 ct0) (ct_cx ct0 + ct_x1 ct0))
          (mathATan2 (ct_cy ct1 + ct_y1 ct1) (ct_cx ct1 + ct_x1 ct1))
          (negb clockwise));
     (OuterEndFillet,
      Arc (cx + ct_cx ct1) (cy + ct_cy ct1) (mathMin crEnd limited)
          (mathATan2 (ct_y1 ct1) (ct_x1 ct1)) (mathATan2 (ct_y0 ct1) (ct_x0 ct1))
          (negb clockwise))].
Proof.
  intros H H' H''. apply Rgtb_true in H, H'. apply Rltb_false in H''.
  unfold outerRing. now rewrite H, H', H''.
Qed.

Lemma innerRing_line :
  innerRadius <= e \/ arc <= e ->
  innerRing cx cy radius innerRadius startAngle endAngle clockwise
            arc crStart crEnd crMax limited
  = [(InnerLine,
      LineTo (cx + innerRadius * cos endAngle) (cy + innerRadius * sin endAngle))].
Proof.
  intros H. unfold innerRing.
  assert (E : negb (innerRadius >? e) || negb (arc >? e) = true).
  { destruct H as [H | H]; apply Rgtb_false in H; rewrite H; simpl;
      [reflexivity | apply orb_true_r]. }
  now rewrite E.
Qed.

Lemma innerRing_plain :
  innerRadius > e -> arc > e -> limited <= e ->
  innerRing cx cy radius innerRadius startAngle endAngle clockwise
            arc crStart crEnd crMax limited
  = [(InnerPlainArc, Arc cx cy innerRadius endAngle startAngle clockwise)].
Proof.
  intros H H' H''. apply Rgtb_true in H, H'. apply Rgtb_false in H''.
  unfold innerRing. now rewrite H, H', H''.
Qed.

Lemma innerRing_corners :
  innerRadius > e -> arc > e -> limited > e -> crMax <= limited ->
  let ct0 := computeCornerTangents
               (innerRadius * cos endAngle) (innerRadius * sin endAngle)
               (radius * cos endAngle) (radius * sin endAngle)
               innerRadius (- mathMin crEnd limited) clockwise in
  let ct1 := computeCornerTangents
               (radius * cos startAngle) (radius * sin startAngle)
               (innerRadius * cos startAngle) (innerRadius * sin startAngle)
               innerRadius (- mathMin crStart limited) clockwise in
  innerRing cx cy radius innerRadius startAngle endAngle clockwise
            arc crStart crEnd crMax limited
  = [(InnerCornerLine,
      LineTo (cx + ct_cx ct0 + ct_x0 ct0) (cy + ct_cy ct0 + ct_y0 ct0));
     (InnerEndFillet,
      Arc (cx + ct_cx ct0) (cy + ct_cy ct0) (mathMin crEnd limited)
          (mathATan2 (ct_y0 ct0) (ct_x0 ct0)) (mathATan2 (ct_y1 ct0) (ct_x1 ct0))
          (negb clockwise));
     (InnerRingArc,
      Arc cx cy innerRadius
          (mathATan2 (ct_cy ct0 + ct_y1 ct0) (ct_cx ct0 + ct_x1 ct0))
          (mathATan2 (ct_cy ct1 + ct_y1 ct1) (ct_cx ct1 + ct_x1 ct1))
          clockwise);
     (InnerStartFillet,
      Arc (cx + ct_cx ct1) (cy + ct_cy ct1) (mathMin crStart limited)
          (mathATan2 (ct_y1 ct1) (ct_x1 ct1)) (mathATan2 (ct_y0 ct1) (ct_x0 ct1))
          (negb clockwise))].
Proof.
  intros H H' H'' H3. apply Rgtb_true in H, H', H''. apply Rltb_false in H3.
  unfold innerRing. now rewrite H, H', H'', H3.
Qed.

End Branches.

(** The end points the source assigns only under [ocrMax > e || icrMax > e]
    are read under [limitedOcrMax > e] or [limitedIcrMax > e] only: there
    they have been assigned. *)
Lemma corner_points_assigned
    (radius innerRadius startAngle endAngle arc om im lo li : R) :
  limitedMax radius innerRadius startAngle endAngle arc om im = (lo, li) ->
  lo > e \/ li > e ->
  (om >? e) || (im >? e) = true.
Proof.
  intros L H. apply limitedMax_le in L. destruct L as [Lo Li].
  apply orb_true_iff. rewrite !Rgtb_true. lra.
Qed.

(** Without a corner radius above [e] the second clamp does nothing. *)
Lemma limitedMax_no_corner (radius innerRadius startAngle endAngle arc om im : R) :
  om <= e -> im <= e ->
  limitedMax radius innerRadius startAngle endAngle arc om im = (om, im).
Proof.
  intros H H'. apply Rgtb_false in H, H'. unfold limitedMax. now rewrite H, H'.
Qed.

(** Nor does it from a half turn on. *)
Lemma limitedMax_wide (radius innerRadius startAngle endAngle arc om im : R) :
  PI <= arc ->
  limitedMax radius innerRadius startAngle endAngle arc om im = (om, im).
Proof.
  intros H. apply Rltb_false in H. unfold limitedMax. rewrite H.
  now destruct ((om >? e) || (im >? e)).
Qed.

(** The sector branch of the builder. *)
Lemma emit_sector (nAA : R * R -> bool -> R * R) (shape : Shape)
    (radius innerRadius icrStart icrEnd ocrStart ocrEnd lo li : R) :
  effectiveRadii (r shape) (r0 shape) = Some (radius, innerRadius) ->
  cornerRadii shape = (icrStart, icrEnd, ocrStart, ocrEnd) ->
  radius > e ->
  arc nAA (startAngle shape) (endAngle shape) (truthy (clockwise shape)) <= PI2 - e ->
  limitedMax radius innerRadius (startAngle shape) (endAngle shape)
             (arc nAA (startAngle shape) (endAngle shape) (truthy (clockwise shape)))
             (ocrMax radius innerRadius ocrStart ocrEnd)
             (icrMax radius innerRadius icrStart icrEnd) = (lo, li) ->
  emit nAA shape
  = outerRing (cx shape) (cy shape) radius innerRadius
              (startAngle shape) (endAngle shape) (truthy (clockwise shape))
              (arc nAA (startAngle shape) (endAngle shape) (truthy (clockwise shape)))
              ocrStart ocrEnd (ocrMax radius innerRadius ocrStart ocrEnd) lo
    ++ innerRing (cx shape) (cy shape) radius innerRadius
                 (startAngle shape) (endAngle shape) (truthy (clockwise shape))
                 (arc nAA (startAngle shape) (endAngle shape) (truthy (clockwise shape)))
                 icrStart icrEnd (icrMax radius innerRadius icrStart icrEnd) li
    ++ [(Close, ClosePath)].
Proof.
  intros E C Hr Ha L. unfold emit. rewrite E, C, L.
  apply Rgtb_true in Hr. apply Rgtb_false in Ha. rewrite Hr, Ha. simpl.
  now rewrite app_assoc.
Qed.

(** ** The two straight edges of a sector *)

(** The determinant the intersection primitive computes for the two edges,
    which run from the outer to the inner radius at the start and at the end
    angle. *)
Lemma edges_determinant (radius innerRadius startAngle endAngle : R) :
  (innerRadius * sin endAngle - radius * sin endAngle)
  * (innerRadius * cos startAngle - radius * cos startAngle)
  - (innerRadius * cos endAngle - radius * cos endAngle)
    * (innerRadius * sin startAngle - radius * sin startAngle)
  = (radius - innerRadius) * (radius - innerRadius) * sin (endAngle - startAngle).
Proof.
  rewrite sin_minus. ring.
Qed.

(** Both edges lie on lines through the centre: when they cross, they cross
    there. *)
Lemma edges_cross_at_centre (radius innerRadius startAngle endAngle it0 it1 : R) :
  intersect (radius * cos startAngle) (radius * sin startAngle)
            (innerRadius * cos startAngle) (innerRadius * sin startAngle)
            (radius * cos endAngle) (radius * sin endAngle)
            (innerRadius * cos endAngle) (innerRadius * sin endAngle)
  = Some (it0, it1) ->
  it0 = 0 /\ it1 = 0.
Proof.
  unfold intersect. cbv zeta.
  destruct (_ <? e) eqn:H; [discriminate |].
  apply Rltb_false in H. intros I. inversion I; subst; clear I.
  pose proof e_pos as He.
  match type of H with
  | e <= ?t * ?t => assert (Ht : t <> 0) by (intros Z; rewrite Z in H; lra)
  end.
  split; field; exact Ht.
Qed.

Lemma cos2_sin2_scaled (k x : R) :
  k * cos x * (k * cos x) + k * sin x * (k * sin x) = k * k.
Proof.
  pose proof (sin2_cos2 x) as H. unfold Rsqr in H.
  replace (k * cos x * (k * cos x) + k * sin x * (k * sin x))
    with (k * k * (sin x * sin x + cos x * cos x)) by ring.
  rewrite H. ring.
Qed.

(** The second clamp in closed form, when the two edges cross: they cross at
    the centre, so [b = 0], and the two vectors to the outer end points make
    the angle whose cosine is that of the difference of the two angles. *)
Lemma limitedMax_crossing (radius innerRadius startAngle endAngle arc om im : R) :
  0 < radius ->
  om > e \/ im > e ->
  arc < PI ->
  (let t := (radius - innerRadius) * (radius - innerRadius)
            * sin (endAngle - startAngle) in e <= t * t) ->
  let a := 1 / sin (acos (cos (endAngle - startAngle)) / 2) in
  limitedMax radius innerRadius startAngle endAngle arc om im
  = (mathMin om (radius / (a + 1)), mathMin im (innerRadius / (a - 1))).
Proof.
  intros Hr Hcr Harc Hdet a.
  unfold limitedMax, mathCos, mathSin, mathACos, mathSqrt.
  assert (Eor : (om >? e) || (im >? e) = true).
  { destruct Hcr as [H | H]; apply Rgtb_true in H; rewrite H;
      [reflexivity | apply orb_true_r]. }
  apply Rltb_true in Harc. rewrite Eor, Harc.
  destruct (intersect _ _ _ _ _ _ _ _) as [[it0 it1]|] eqn:I.
  - apply edges_cross_at_centre in I. destruct I as [-> ->].
    rewrite !Rminus_0_r.
    replace (0 * 0 + 0 * 0) with 0 by ring. rewrite sqrt_0, !Rminus_0_r.
    rewrite !cos2_sin2_scaled, !sqrt_square by lra.
    replace ((radius * cos startAngle * (radius * cos endAngle)
              + radius * sin startAngle * (radius * sin endAngle))
             / (radius * radius))
      with (cos (endAngle - startAngle))
      by (rewrite cos_minus; field; lra).
    reflexivity.
  - exfalso. apply intersect_None_iff in I. cbv zeta in I, Hdet.
    rewrite edges_determinant in I. lra.
Qed.

(** For a sweep of at most a half turn from the start to the end angle, that
    angle is the difference of the two. *)
Lemma limitedMax_restricted (radius innerRadius startAngle endAngle arc om im : R) :
  0 < radius ->
  0 <= endAngle - startAngle <= PI ->
  om > e \/ im > e ->
  arc < PI ->
  (let t := (radius - innerRadius) * (radius - innerRadius)
            * sin (endAngle - startAngle) in e <= t * t) ->
  let a := 1 / sin ((endAngle - startAngle) / 2) in
  limitedMax radius innerRadius startAngle endAngle arc om im
  = (mathMin om (radius / (a + 1)), mathMin im (innerRadius / (a - 1))).
Proof.
  intros Hr Hang Hcr Harc Hdet a.
  rewrite (limitedMax_crossing _ _ _ _ _ _ _ Hr Hcr Harc Hdet).
  rewrite acos_cos by exact Hang. reflexivity.
Qed.

Lemma div_lt_of_lt_mult (a b c : R) : 0 < c -> a < b * c -> a / c < b.
Proof.
  intros Hc H. apply (Rmult_lt_reg_r c); [exact Hc |].
  unfold Rdiv. rewrite Rmult_assoc, Rinv_l by lra. lra.
Qed.

Lemma lt_div_of_mult_lt (a b c : R) : 0 < c -> a * c < b -> a < b / c.
Proof.
  intros Hc H. apply (Rmult_lt_reg_r c); [exact Hc |].
  unfold Rdiv. rewrite Rmult_assoc, Rinv_l by lra. lra.
Qed.

Lemma sin_between_0_1 (x : R) : 0 < x < PI / 2 -> 0 < sin x < 1.
Proof.
  intros [H0 H1]. pose proof PI_gt_2 as Hpi. split.
  - apply sin_gt_0; lra.
  - rewrite <- sin_PI2. apply sin_increasing_1; lra.
Qed.

Lemma sin_lower (x : R) : 0 <= x <= 1 -> x / 2 <= sin x.
Proof.
  intros [H0 H1].
  assert (Hpi : x <= PI) by (pose proof PI_gt_2; lra).
  destruct (sin_bound x 0 H0 Hpi) as [L _].
  unfold sin_approx, sin_term in L. simpl in L.
  assert (x * (x * x) <= x).
  { assert (x * x <= 1) by nra. nra. }
  lra.
Qed.

(** For a sine [s] strictly between 0 and 1, the stricter outer bound lies
    strictly between 0 and half the radius. *)
Lemma outer_bound_below_half (radius s : R) :
  0 < radius -> 0 < s < 1 ->
  0 < radius / (1 / s + 1) < radius / 2.
Proof.
  intros Hr [Hs0 Hs1].
  assert (H1 : 1 < 1 / s).
  { apply (Rmult_lt_reg_r s); [lra |]. field_simplify; lra. }
  split.
  - apply Rdiv_lt_0_compat; lra.
  - unfold Rdiv. apply Rmult_lt_compat_l; [lra |].
    apply Rinv_lt_contravar; lra.
Qed.

(** ** Merged corners *)

(** The second clamp lowers the outer maximum only for a sweep under a half
    turn with some corner radius above [e]. *)
Lemma limitedMax_lowered (radius innerRadius startAngle endAngle arc om im lo li : R) :
  limitedMax radius innerRadius startAngle endAngle arc om im = (lo, li) ->
  lo < om ->
  (om > e \/ im > e) /\ arc < PI.
Proof.
  unfold limitedMax.
  destruct (om >? e) eqn:H1; destruct (im >? e) eqn:H2; simpl;
    destruct (arc <? PI) eqn:H3;
    try (intros H; inversion H; subst; lra);
    apply Rltb_true in H3;
    try apply Rgtb_true in H1; try apply Rgtb_true in H2; intros _ _; tauto.
Qed.

Lemma corner_needs_room (radius innerRadius a b c d : R) :
  0 <= innerRadius <= radius ->
  ocrMax radius innerRadius a b > e \/ icrMax radius innerRadius c d > e ->
  radius > e.
Proof.
  intros Hr H. pose proof (ocrMax_le_halfRd radius innerRadius a b).
  pose proof (icrMax_le_halfRd radius innerRadius c d).
  assert (Hh : halfRd radius innerRadius > e) by lra.
  revert Hh. clear H H0 H1. math_lra.
Qed.

Lemma innerRing_no_outer_site
    (cx cy radius innerRadius startAngle endAngle : R) (clockwise : bool)
    (arc icrStart icrEnd im li : R) :
  existsb isOuterRingSite
          (List.map fst (innerRing cx cy radius innerRadius startAngle endAngle
                                   clockwise arc icrStart icrEnd im li)) = false.
Proof.
  unfold innerRing.
  destruct (negb (innerRadius >? e) || negb (arc >? e));
    [| destruct (li >? e); [destruct (li <? im) |]]; reflexivity.
Qed.

(** ** The sweep and the angle between the edges *)

Lemma cos_turns (x : R) (k : Z) : cos (x + IZR k * PI2) = cos x.
Proof.
  unfold PI2. destruct (Z_le_gt_dec 0 k) as [H | H].
  - rewrite <- (Z2Nat.id k H), <- INR_IZR_INZ.
    replace (x + INR (Z.to_nat k) * (PI * 2)) with (x + 2 * INR (Z.to_nat k) * PI) by ring.
    apply cos_period.
  - assert (Hk : (0 <= - k)%Z) by lia.
    rewrite <- (cos_period (x + IZR k * (PI * 2)) (Z.to_nat (- k))).
    rewrite INR_IZR_INZ, (Z2Nat.id _ Hk), opp_IZR. f_equal. ring.
Qed.

Lemma sin_turns (x : R) (k : Z) : sin (x + IZR k * PI2) = sin x.
Proof.
  unfold PI2. destruct (Z_le_gt_dec 0 k) as [H | H].
  - rewrite <- (Z2Nat.id k H), <- INR_IZR_INZ.
    replace (x + INR (Z.to_nat k) * (PI * 2)) with (x + 2 * INR (Z.to_nat k) * PI) by ring.
    apply sin_period.
  - assert (Hk : (0 <= - k)%Z) by lia.
    rewrite <- (sin_period (x + IZR k * (PI * 2)) (Z.to_nat (- k))).
    rewrite INR_IZR_INZ, (Z2Nat.id _ Hk), opp_IZR. f_equal. ring.
Qed.

Lemma cos_Rabs (x : R) : cos (Rabs x) = cos x.
Proof. unfold Rabs. destruct (Rcase_abs x); [apply cos_neg | reflexivity]. Qed.

Lemma sin_Rabs_sqr (x : R) : sin (Rabs x) * sin (Rabs x) = sin x * sin x.
Proof.
  unfold Rabs. destruct (Rcase_abs x); [rewrite sin_neg; ring | reflexivity].
Qed.

(** Under a half turn, the sweep is the angle between the two edges. *)
Lemma arc_is_the_angle (nAA : R * R -> bool -> R * R) (s e' : R) (clockwise : bool) :
  keepsSweep nAA ->
  arc nAA s e' clockwise < PI ->
  0 <= arc nAA s e' clockwise
  /\ cos (arc nAA s e' clockwise) = cos (e' - s)
  /\ sin (arc nAA s e' clockwise) * sin (arc nAA s e' clockwise)
     = sin (e' - s) * sin (e' - s).
Proof.
  intros K. unfold arc, mathAbs.
  destruct (s === e') eqn:E.
  - apply Reqb_true in E. subst. intros _.
    replace (e' - e') with 0 by ring. repeat split; lra.
  - cbv zeta. intros H. pose proof PI_gt_2 as Hpi.
    destruct (K s e' (negb clockwise)) as [[k Hk] | Hfull];
      [| rewrite Hfull in H; unfold PI2 in H; lra].
    split; [apply Rabs_pos |].
    rewrite cos_Rabs, sin_Rabs_sqr.
    replace (fst (nAA (s, e') (negb clockwise)) - snd (nAA (s, e') (negb clockwise)))
      with (- (e' - s + IZR k * PI2)) by (rewrite <- Hk; ring).
    rewrite cos_neg, sin_neg, cos_turns, sin_turns. split; [reflexivity | ring].
Qed.

(** A lowered outer maximum is the stricter bound itself. *)
Lemma limitedMax_lowered_value
    (radius innerRadius startAngle endAngle arc om im lo li : R) :
  0 < radius ->
  limitedMax radius innerRadius startAngle endAngle arc om im = (lo, li) ->
  lo < om ->
  arc < PI
  /\ (let t := (radius - innerRadius) * (radius - innerRadius)
               * sin (endAngle - startAngle) in e <= t * t)
  /\ lo = radius / (1 / sin (acos (cos (endAngle - startAngle)) / 2) + 1).
Proof.
  intros Hr L Hlo.
  destruct (limitedMax_lowered _ _ _ _ _ _ _ _ _ L Hlo) as [Hcr Harc].
  assert (Hdet : let t := (radius - innerRadius) * (radius - innerRadius)
                          * sin (endAngle - startAngle) in e <= t * t).
  { cbv zeta. apply Rnot_lt_le. intros Hlt.
    assert (N : intersect (radius * cos startAngle) (radius * sin startAngle)
            (innerRadius * cos startAngle) (innerRadius * sin startAngle)
            (radius * cos endAngle) (radius * sin endAngle)
            (innerRadius * cos endAngle) (innerRadius * sin endAngle) = None).
    { apply intersect_None_iff. cbv zeta. rewrite edges_determinant. exact Hlt. }
    rewrite (limitedMax_parallel _ _ _ _ _ _ _ N) in L.
    inversion L; subst. lra. }
  repeat split; try assumption.
  rewrite (limitedMax_crossing _ _ _ _ _ _ _ Hr Hcr Harc Hdet) in L.
  inversion L as [[Ho Hi]]. clear Hi. unfold mathMin, Rmin in *.
  destruct (Rle_dec _ _); [subst; lra | reflexivity].
Qed.

(** The stricter outer bound of a sweep above [e] whose edges cross is
    itself above [e]. *)
Lemma crossing_bound_above_e (radius innerRadius a S : R) :
  0 < radius -> 0 <= innerRadius <= radius ->
  e < a < PI ->
  S * S = sin a * sin a ->
  (let t := (radius - innerRadius) * (radius - innerRadius) * S in e <= t * t) ->
  radius / (1 / sin (a / 2) + 1) > e.
Proof.
  intros Hr Hin Ha HS Hdet. cbv zeta in Hdet.
  pose proof PI_gt_2 as Hpi. pose proof PI_4 as Hpi4.
  assert (He : e = 1 / 10000) by reflexivity.
  set (s := sin (a / 2)) in *. set (c := cos (a / 2)).
  assert (Hs : 0 < s < 1) by (apply sin_between_0_1; lra).
  assert (Hse : 1 / 40000 <= s).
  { assert (H1 : e / 2 / 2 <= sin (e / 2)) by (apply sin_lower; lra).
    assert (H2 : sin (e / 2) < sin (a / 2)) by (apply sin_increasing_1; lra).
    unfold s. lra. }
  assert (Hc : c * c <= 1).
  { pose proof (sin2_cos2 (a / 2)) as H. unfold Rsqr in H. fold s c in H. nra. }
  assert (Hsina : sin a = 2 * s * c).
  { replace a with (2 * (a / 2)) at 1 by field. apply sin_2a. }
  set (D := radius - innerRadius) in *.
  assert (HD : 0 <= D <= radius) by (unfold D; lra).
  assert (H1 : 1 / 10000 <= (D * D * (2 * s)) * (D * D * (2 * s))).
  { assert (HSS : (D * D * S) * (D * D * S)
                  = (D * D * (2 * s)) * (D * D * (2 * s)) * (c * c)).
    { replace ((D * D * S) * (D * D * S)) with (D * D * D * D * (S * S)) by ring.
      rewrite HS, Hsina. ring. }
    assert (0 <= (D * D * (2 * s)) * (D * D * (2 * s))) by nra.
    nra. }
  assert (H2 : 1 / 100 <= D * D * (2 * s)).
  { assert (0 <= D * D * (2 * s)) by nra. nra. }
  assert (H3 : 1 / 200 <= radius * radius * s).
  { assert (HDD : D * D <= radius * radius) by nra.
    assert (D * D * s <= radius * radius * s)
      by (apply Rmult_le_compat_r; lra).
    lra. }
  assert (H4 : 1 / 5000 < radius * s).
  { assert (H5 : 1 / 8000000 <= (radius * s) * (radius * s)).
    { assert ((1 / 200) * (1 / 40000) <= (radius * radius * s) * s)
        by (apply Rmult_le_compat; lra).
      lra. }
    assert (0 < radius * s) by (apply Rmult_lt_0_compat; lra).
    nra. }
  assert (Hinv : 0 < 1 / s) by (apply Rdiv_lt_0_compat; lra).
  apply lt_div_of_mult_lt; [lra |].
  replace (e * (1 / s + 1)) with ((e * (1 + s)) / s) by (field; lra).
  apply div_lt_of_lt_mult; [lra |]. nra.
Qed.

Section MergedFacts.

Variable nAA : R * R -> bool -> R * R.

(** Behind its two guards, a sweep above [e] and a limited maximum above [e],
    the merged branch: a MoveTo and one arc of the limited radius. *)
Lemma merged_outer_corners_guarded
    (ctx : list PathCommand) (shape : Shape)
    (radius innerRadius icrStart icrEnd ocrStart ocrEnd lo li : R) :
  let sweep := arc nAA (startAngle shape) (endAngle shape) (truthy (clockwise shape)) in
  effectiveRadii (r shape) (r0 shape) = Some (radius, innerRadius) ->
  cornerRadii shape = (icrStart, icrEnd, ocrStart, ocrEnd) ->
  limitedMax radius innerRadius (startAngle shape) (endAngle shape) sweep
             (ocrMax radius innerRadius ocrStart ocrEnd)
             (icrMax radius innerRadius icrStart icrEnd) = (lo, li) ->
  sweep > e ->
  lo > e ->
  lo < ocrMax radius innerRadius ocrStart ocrEnd ->
  exists x y fx fy sa ea,
    buildPath nAA ctx shape
    = ctx ++ MoveTo x y
          :: Arc fx fy lo sa ea (negb (truthy (clockwise shape)))
          :: List.map snd
               (innerRing (cx shape) (cy shape) radius innerRadius
                          (startAngle shape) (endAngle shape)
                          (truthy (clockwise shape)) sweep
                          icrStart icrEnd (icrMax radius innerRadius icrStart icrEnd) li)
          ++ [ClosePath]
    /\ existsb isOuterRingSite (List.map fst (emit nAA shape)) = false.
Proof.
  intros sweep E C L Hsweep Hlo Hmerged.
  pose proof PI_gt_2 as Hpi.
  destruct (limitedMax_lowered _ _ _ _ _ _ _ _ _ L Hmerged) as [Hcr Hhalf].
  assert (Hrad : radius > e).
  { pose proof (effectiveRadii_Some _ _ _ _ E) as (_ & _ & _ & Hin).
    eapply corner_needs_room; eassumption. }
  assert (Hfull : sweep <= PI2 - e) by (unfold PI2, e; lra).
  unfold buildPath.
  rewrite (emit_sector nAA shape _ _ _ _ _ _ _ _ E C Hrad Hfull L).
  fold sweep. rewrite (outerRing_merged _ _ _ _ _ _ _ _ _ _ _ _ Hsweep Hlo Hmerged).
  do 6 eexists. split.
  - cbn [app List.map snd]. rewrite map_app. reflexivity.
  - cbn [app List.map fst existsb isOuterRingSite orb].
    rewrite map_app, existsb_app, innerRing_no_outer_site. reflexivity.
Qed.

(** C2, as amended: whenever the sweep exceeds 1e-4 and the stricter clamp
    lowers the maximum outer corner radius ([limitedOcrMax < ocrMax]), the
    outer boundary is emitted as a MoveTo followed by a single arc of radius
    [limitedOcrMax] (the merged fillet); what follows belongs to the inner
    boundary, and no arc is issued for the outer ring itself.  The angle
    normaliser is any one that keeps the sweep. *)
Theorem merged_outer_corners
    (ctx : list PathCommand) (shape : Shape)
    (radius innerRadius icrStart icrEnd ocrStart ocrEnd lo li : R) :
  let sweep := arc nAA (startAngle shape) (endAngle shape) (truthy (clockwise shape)) in
  keepsSweep nAA ->
  effectiveRadii (r shape) (r0 shape) = Some (radius, innerRadius) ->
  cornerRadii shape = (icrStart, icrEnd, ocrStart, ocrEnd) ->
  limitedMax radius innerRadius (startAngle shape) (endAngle shape) sweep
             (ocrMax radius innerRadius ocrStart ocrEnd)
             (icrMax radius innerRadius icrStart icrEnd) = (lo, li) ->
  sweep > e ->
  lo < ocrMax radius innerRadius ocrStart ocrEnd ->
  exists x y fx fy sa ea,
    buildPath nAA ctx shape
    = ctx ++ MoveTo x y
          :: Arc fx fy lo sa ea (negb (truthy (clockwise shape)))
          :: List.map snd
               (innerRing (cx shape) (cy shape) radius innerRadius
                          (startAngle shape) (endAngle shape)
                          (truthy (clockwise shape)) sweep
                          icrStart icrEnd (icrMax radius innerRadius icrStart icrEnd) li)
          ++ [ClosePath]
    /\ existsb isOuterRingSite (List.map fst (emit nAA shape)) = false.
Proof.
  intros sweep K E C L Hsweep Hmerged.
  pose proof (effectiveRadii_Some _ _ _ _ E) as (_ & _ & Hr & Hin).
  destruct (limitedMax_lowered_value _ _ _ _ _ _ _ _ _ Hr L Hmerged)
    as (Hhalf & Hdet & Hlo).
  destruct (arc_is_the_angle nAA _ _ _ K Hhalf) as (H0 & Hcos & Hsin).
  fold sweep in H0, Hcos, Hsin, Hhalf.
  rewrite <- Hcos, acos_cos in Hlo by lra.
  assert (Hgt : lo > e).
  { rewrite Hlo.
    apply (crossing_bound_above_e radius innerRadius sweep
             (sin (endAngle shape - startAngle shape)));
      try assumption; lra. }
  exact (merged_outer_corners_guarded ctx shape radius innerRadius
           icrStart icrEnd ocrStart ocrEnd lo li E C L Hsweep Hgt Hmerged).
Qed.

End MergedFacts.

(** * Concrete descriptors *)

(** ** Evaluating the builder *)

Lemma effectiveRadii_sorted (r r0 : R) :
  0 < r -> 0 <= r0 <= r -> effectiveRadii r r0 = Some (r, r0).
Proof.
  intros Hr Hr0.
  destruct (effectiveRadii r r0) as [[a b]|] eqn:E.
  - apply effectiveRadii_Some in E. destruct E as (-> & -> & _).
    f_equal. f_equal; math_lra.
  - apply effectiveRadii_None in E. exfalso. revert E. math_lra.
Qed.

Lemma effectiveRadii_inverted (r r0 : R) :
  0 < r0 -> 0 <= r <= r0 -> effectiveRadii r r0 = Some (r0, r).
Proof.
  intros Hr Hr0. rewrite effectiveRadii_sym. now apply effectiveRadii_sorted.
Qed.

(** C3, with [r = 0] and [r0 = 0]: nothing is emitted, in particular not the
    two commands MoveTo(cx, cy), ClosePath. *)
Lemma zero_radii_no_point_commands :
  r zeroRadii = 0 /\ r0 zeroRadii = 0
  /\ buildPath normalizeArcAngles [] zeroRadii = []
  /\ buildPath normalizeArcAngles [] zeroRadii
     <> [MoveTo (cx zeroRadii) (cy zeroRadii); ClosePath].
Proof.
  assert (H : buildPath normalizeArcAngles [] zeroRadii = []).
  { unfold buildPath. rewrite early_return; [reflexivity | simpl; lra | simpl; lra]. }
  repeat split; try assumption. rewrite H. discriminate.
Qed.

Lemma zero_radii_emit_nothing_witness :
  r zeroRadii = 0 /\ r0 zeroRadii = 0
  /\ buildPath normalizeArcAngles [] zeroRadii = [].
Proof.
  split; [reflexivity | split; [reflexivity |]].
  apply (zero_radii_emit_nothing normalizeArcAngles [] zeroRadii); reflexivity.
Defined.

(** C4, with [r = 1/20000] and [r0 = 0], both at most 1e-4: the builder
    emits the two commands of a point. *)
Lemma tiny_radius_emits_a_point :
  r tinyRadius <= e /\ r0 tinyRadius <= e
  /\ buildPath normalizeArcAngles [] tinyRadius = [MoveTo 3 4; ClosePath].
Proof.
  unfold e. simpl r; simpl r0. repeat split; try lra.
  unfold buildPath.
  rewrite (point_branch normalizeArcAngles tinyRadius (1 / 20000) 0).
  - reflexivity.
  - apply effectiveRadii_sorted; lra.
  - unfold e. lra.
Qed.

Lemma nonpositive_radii_emit_nothing_witness :
  r negativeRadii <= 0 /\ r0 negativeRadii <= 0
  /\ buildPath normalizeArcAngles [] negativeRadii = [].
Proof.
  assert (H : r negativeRadii <= 0) by (simpl; lra).
  assert (H0 : r0 negativeRadii <= 0) by (simpl; lra).
  split; [exact H | split; [exact H0 |]].
  exact (nonpositive_radii_emit_nothing normalizeArcAngles [] negativeRadii H H0).
Defined.

Lemma zero_sweep_collapses_witness :
  effectiveRadii (r sameAngle) (r0 sameAngle) = Some (10, 4)
  /\ 10 > e
  /\ startAngle sameAngle = endAngle sameAngle
  /\ buildPath normalizeArcAngles [] sameAngle
     = [MoveTo (3 + 10 * cos 1) (4 + 10 * sin 1);
        LineTo (3 + 4 * cos 1) (4 + 4 * sin 1);
        ClosePath].
Proof.
  assert (E : effectiveRadii (r sameAngle) (r0 sameAngle) = Some (10, 4))
    by (apply effectiveRadii_sorted; simpl; lra).
  assert (Hr : 10 > e) by (unfold e; lra).
  split; [exact E | split; [exact Hr | split; [reflexivity |]]].
  exact (proj1 (zero_sweep_collapses normalizeArcAngles [] sameAngle 10 4
                                     E Hr eq_refl)).
Defined.

Lemma full_turn_annulus_witness :
  effectiveRadii (r fullTurn) (r0 fullTurn) = Some (10, 4)
  /\ r fullTurn > e
  /\ arc normalizeArcAngles (startAngle fullTurn) (endAngle fullTurn)
         (truthy (clockwise fullTurn)) > PI2 - e
  /\ buildPath normalizeArcAngles [] fullTurn
     = [MoveTo (0 + 10 * cos 0) (0 + 10 * sin 0);
        Arc 0 0 10 0 (PI * 2) false;
        MoveTo (0 + 4 * cos (PI * 2)) (0 + 4 * sin (PI * 2));
        Arc 0 0 4 (PI * 2) 0 true;
        ClosePath].
Proof.
  assert (E : effectiveRadii (r fullTurn) (r0 fullTurn) = Some (10, 4))
    by (apply effectiveRadii_sorted; simpl; lra).
  assert (Hr : r fullTurn > e) by (unfold e; simpl; lra).
  assert (Ha : arc normalizeArcAngles (startAngle fullTurn) (endAngle fullTurn)
                   (truthy (clockwise fullTurn)) > PI2 - e).
  { simpl. rewrite arc_full_turn. unfold e. lra. }
  split; [exact E | split; [exact Hr | split; [exact Ha |]]].
  pose proof (proj1 (full_turn_annulus normalizeArcAngles [] fullTurn 10 4 E Hr Ha)) as H.
  assert (H4 : (4 >? e) = true) by (apply Rgtb_true; unfold e; lra).
  rewrite H4 in H. exact H.
Defined.

Lemma cornerless_limits (radius innerRadius startAngle endAngle arc : R) :
  0 <= innerRadius <= radius ->
  limitedMax radius innerRadius startAngle endAngle arc
             (ocrMax radius innerRadius 0 0) (icrMax radius innerRadius 0 0)
  = (0, 0).
Proof.
  intros H.
  assert (Ho : ocrMax radius innerRadius 0 0 = 0) by (unfold ocrMax; math_lra).
  assert (Hi : icrMax radius innerRadius 0 0 = 0) by (unfold icrMax; math_lra).
  rewrite Ho, Hi. apply limitedMax_no_corner; pose proof e_pos; lra.
Qed.

(** C7, a sweep of exactly [2 PI - 1e-4]: the sweep is at least
    [2 PI - 1e-4] and [r > 1e-4], and yet the builder takes the sector
    branch: the inner circle, of radius 1/2 > 1e-4, is not preceded by a
    second MoveTo. *)
Lemma sweep_at_threshold_is_a_sector :
  arc normalizeArcAngles (startAngle almostFullTurn) (endAngle almostFullTurn)
      (truthy (clockwise almostFullTurn)) >= PI2 - e
  /\ r almostFullTurn > e
  /\ effectiveRadii (r almostFullTurn) (r0 almostFullTurn) = Some (1, 1 / 2)
  /\ 1 / 2 > e
  /\ buildPath normalizeArcAngles [] almostFullTurn
     = [MoveTo (0 + 1 * cos 0) (0 + 1 * sin 0);
        Arc 0 0 1 0 (PI2 - e) false;
        Arc 0 0 (1 / 2) (PI2 - e) 0 true;
        ClosePath]
  /\ buildPath normalizeArcAngles [] almostFullTurn
     <> [MoveTo (0 + 1 * cos 0) (0 + 1 * sin 0);
         Arc 0 0 1 0 (PI2 - e) false;
         MoveTo (0 + 1 / 2 * cos (PI2 - e)) (0 + 1 / 2 * sin (PI2 - e));
         Arc 0 0 (1 / 2) (PI2 - e) 0 true;
         ClosePath].
Proof.
  pose proof PI_gt_2 as Hpi.
  assert (Harc : arc normalizeArcAngles (startAngle almostFullTurn)
                     (endAngle almostFullTurn) (truthy (clockwise almostFullTurn))
                 = PI2 - e).
  { simpl. apply arc_from_0. unfold PI2, e. lra. }
  assert (Hrad : effectiveRadii (r almostFullTurn) (r0 almostFullTurn) = Some (1, 1 / 2))
    by (apply effectiveRadii_sorted; simpl; lra).
  assert (Hout : buildPath normalizeArcAngles [] almostFullTurn
     = [MoveTo (0 + 1 * cos 0) (0 + 1 * sin 0);
        Arc 0 0 1 0 (PI2 - e) false;
        Arc 0 0 (1 / 2) (PI2 - e) 0 true;
        ClosePath]).
  { unfold buildPath.
    rewrite (emit_sector normalizeArcAngles almostFullTurn 1 (1 / 2) 0 0 0 0 0 0
                         Hrad eq_refl).
    - rewrite Harc.
      rewrite outerRing_plain by (unfold PI2, e; lra).
      rewrite innerRing_plain by (unfold PI2, e; lra).
      reflexivity.
    - unfold e. lra.
    - rewrite Harc. lra.
    - apply cornerless_limits. lra. }
  repeat split; try assumption.
  - rewrite Harc. lra.
  - unfold e. simpl. lra.
  - unfold e. lra.
  - rewrite Hout. discriminate.
Qed.

Lemma parallel_edges_skip_restriction_witness :
  intersect (1 * cos 0) (1 * sin 0) (0 * cos 0) (0 * sin 0)
            (1 * cos 0) (1 * sin 0) (0 * cos 0) (0 * sin 0) = None
  /\ limitedMax 1 0 0 0 0 (1 / 2) 0 = (1 / 2, 0).
Proof.
  assert (H : intersect (1 * cos 0) (1 * sin 0) (0 * cos 0) (0 * sin 0)
                        (1 * cos 0) (1 * sin 0) (0 * cos 0) (0 * sin 0) = None).
  { apply intersect_None_iff. cbv zeta. rewrite cos_0, sin_0. unfold e. lra. }
  split; [exact H |].
  exact (proj2 parallel_edges_skip_restriction 1 0 0 0 0 (1 / 2) 0 H).
Defined.

Lemma half_thickness_disc (radius cr : R) :
  0 < radius -> radius / 2 <= cr -> ocrMax radius 0 cr cr = radius / 2.
Proof. intros H H'. unfold ocrMax. math_lra. Qed.

(** The second clamp on the quarter turn and on the sliver. *)
Lemma limitedMax_quarterTurn :
  limitedMax 100 0 0 (PI / 2) (arc normalizeArcAngles 0 (PI / 2) true)
             (ocrMax 100 0 50 50) (icrMax 100 0 50 50)
  = (mathMin (ocrMax 100 0 50 50) (100 / (1 / sin ((PI / 2 - 0) / 2) + 1)),
     mathMin (icrMax 100 0 50 50) (0 / (1 / sin ((PI / 2 - 0) / 2) - 1))).
Proof.
  pose proof PI_gt_2 as Hpi. pose proof PI_4 as Hpi4.
  rewrite arc_from_0 by (unfold PI2; lra).
  apply limitedMax_restricted; try lra.
  - left. rewrite half_thickness_disc by lra. unfold e. lra.
  - cbv zeta. replace (PI / 2 - 0) with (PI / 2) by ring.
    rewrite sin_PI2. unfold e. lra.
Qed.

Lemma limitedMax_sliver :
  limitedMax 100 0 0 e (arc normalizeArcAngles 0 e true)
             (ocrMax 100 0 50 50) (icrMax 100 0 50 50)
  = (mathMin (ocrMax 100 0 50 50) (100 / (1 / sin ((e - 0) / 2) + 1)),
     mathMin (icrMax 100 0 50 50) (0 / (1 / sin ((e - 0) / 2) - 1))).
Proof.
  pose proof PI_gt_2 as Hpi. pose proof e_pos as He.
  assert (He' : e = 1 / 10000) by reflexivity.
  rewrite arc_from_0 by (unfold PI2; lra).
  apply limitedMax_restricted; try lra.
  - left. rewrite half_thickness_disc by lra. lra.
  - cbv zeta.
    assert (S : (e - 0) / 2 <= sin (e - 0)) by (apply sin_lower; lra).
    assert (T : 1 / 2 <= (100 - 0) * (100 - 0) * sin (e - 0)) by lra.
    nra.
Qed.

Lemma merged_outer_corners_witness :
  exists lo li x y fx fy sa ea,
    keepsSweep normalizeArcAngles
    /\ effectiveRadii (r quarterTurn) (r0 quarterTurn) = Some (100, 0)
    /\ cornerRadii quarterTurn = (50, 50, 50, 50)
    /\ limitedMax 100 0 (startAngle quarterTurn) (endAngle quarterTurn)
                  (arc normalizeArcAngles (startAngle quarterTurn)
                       (endAngle quarterTurn) (truthy (clockwise quarterTurn)))
                  (ocrMax 100 0 50 50) (icrMax 100 0 50 50) = (lo, li)
    /\ arc normalizeArcAngles (startAngle quarterTurn) (endAngle quarterTurn)
           (truthy (clockwise quarterTurn)) > e
    /\ lo < ocrMax 100 0 50 50
    /\ buildPath normalizeArcAngles [] quarterTurn
       = [] ++ MoveTo x y
            :: Arc fx fy lo sa ea (negb (truthy (clockwise quarterTurn)))
            :: List.map snd
                 (innerRing (cx quarterTurn) (cy quarterTurn) 100 0
                            (startAngle quarterTurn) (endAngle quarterTurn)
                            (truthy (clockwise quarterTurn))
                            (arc normalizeArcAngles (startAngle quarterTurn)
                                 (endAngle quarterTurn)
                                 (truthy (clockwise quarterTurn)))
                            50 50 (icrMax 100 0 50 50) li)
            ++ [ClosePath].
Proof.
  pose proof PI_gt_2 as Hpi. pose proof PI_4 as Hpi4.
  assert (E : effectiveRadii (r quarterTurn) (r0 quarterTurn) = Some (100, 0))
    by (apply effectiveRadii_sorted; simpl; lra).
  assert (Ha : arc normalizeArcAngles (startAngle quarterTurn) (endAngle quarterTurn)
                   (truthy (clockwise quarterTurn)) > e).
  { simpl. rewrite arc_from_0 by (unfold PI2; lra). unfold e. lra. }
  assert (Hom : ocrMax 100 0 50 50 = 100 / 2) by (apply half_thickness_disc; lra).
  assert (Hs : 0 < sin ((PI / 2 - 0) / 2) < 1) by (apply sin_between_0_1; lra).
  pose proof (outer_bound_below_half 100 _ ltac:(lra) Hs) as [_ Hup].
  set (lo := mathMin (ocrMax 100 0 50 50) (100 / (1 / sin ((PI / 2 - 0) / 2) + 1))).
  set (li := mathMin (icrMax 100 0 50 50) (0 / (1 / sin ((PI / 2 - 0) / 2) - 1))).
  assert (Hlt : lo < ocrMax 100 0 50 50).
  { unfold lo, mathMin. rewrite Hom.
    eapply Rle_lt_trans; [apply Rmin_r | exact Hup]. }
  destruct (merged_outer_corners normalizeArcAngles [] quarterTurn
              100 0 50 50 50 50 lo li normalizeArcAngles_keepsSweep
              E eq_refl limitedMax_quarterTurn Ha Hlt)
    as (x & y & fx & fy & sa & ea & Hout & _).
  exists lo, li, x, y, fx, fy, sa, ea.
  repeat split; try assumption.
  - apply normalizeArcAngles_keepsSweep.
  - exact limitedMax_quarterTurn.
Defined.

(** C2, a sweep of exactly 1e-4 with radius 100 and corner radius 50
    requested: the stricter clamp lowers the maximum outer corner radius
    ([limitedOcrMax < ocrMax]), and yet the outer boundary is the single
    MoveTo of a collapsed sector: no merged fillet arc follows it. *)
Lemma clamped_sliver_is_collapsed :
  effectiveRadii (r sliver) (r0 sliver) = Some (100, 0)
  /\ cornerRadii sliver = (50, 50, 50, 50)
  /\ fst (limitedMax 100 0 (startAngle sliver) (endAngle sliver)
                     (arc normalizeArcAngles (startAngle sliver) (endAngle sliver)
                          (truthy (clockwise sliver)))
                     (ocrMax 100 0 50 50) (icrMax 100 0 50 50))
     < ocrMax 100 0 50 50
  /\ buildPath normalizeArcAngles [] sliver
     = [MoveTo (0 + 100 * cos 0) (0 + 100 * sin 0);
        LineTo (0 + 0 * cos e) (0 + 0 * sin e);
        ClosePath].
Proof.
  pose proof PI_gt_2 as Hpi. pose proof e_pos as He.
  assert (He' : e = 1 / 10000) by reflexivity.
  assert (E : effectiveRadii (r sliver) (r0 sliver) = Some (100, 0))
    by (apply effectiveRadii_sorted; simpl; lra).
  assert (Ha : arc normalizeArcAngles 0 e true = e)
    by (apply arc_from_0; unfold PI2; lra).
  assert (Hom : ocrMax 100 0 50 50 = 100 / 2) by (apply half_thickness_disc; lra).
  assert (Hs : 0 < sin ((e - 0) / 2) < 1) by (apply sin_between_0_1; lra).
  pose proof (outer_bound_below_half 100 _ ltac:(lra) Hs) as [_ Hup].
  split; [exact E | split; [reflexivity | split]].
  - cbn [startAngle endAngle clockwise sliver truthy].
    rewrite limitedMax_sliver. cbn [fst]. rewrite Hom.
    eapply Rle_lt_trans; [apply Rmin_r | exact Hup].
  - unfold buildPath.
    rewrite (emit_sector normalizeArcAngles sliver 100 0 50 50 50 50 _ _
                         E eq_refl ltac:(lra)
                         ltac:(cbn [startAngle endAngle clockwise sliver truthy];
                               rewrite Ha; unfold PI2; lra)
                         limitedMax_sliver).
    cbn [startAngle endAngle clockwise sliver truthy cx cy]. rewrite Ha.
    rewrite outerRing_collapsed by lra.
    rewrite innerRing_line by (right; lra).
    reflexivity.
Qed.

(** A half turn of the ring between the radii 5 and 10, measured clockwise
    from the angle 0, whose corner radii [i] (inner) and [o] (outer) fit
    into half the thickness of the ring: the radii of the arcs emitted. *)
Lemma half_turn_arc_radii (shape : Shape) (i o : R) :
  startAngle shape = 0 -> endAngle shape = PI -> clockwise shape = Some true ->
  effectiveRadii (r shape) (r0 shape) = Some (10, 5) ->
  cornerRadii shape = (i, i, o, o) ->
  e < i <= 5 / 2 -> e < o <= 5 / 2 ->
  List.map arcRadius (buildPath normalizeArcAngles [] shape)
  = [None; Some o; Some 10; Some o; None; Some i; Some 5; Some i; None].
Proof.
  intros Hs He Hc E C Hi Ho.
  pose proof PI_gt_2 as Hpi. pose proof e_pos as Hepos.
  assert (Ha : arc normalizeArcAngles (startAngle shape) (endAngle shape)
                   (truthy (clockwise shape)) = PI).
  { rewrite Hs, He, Hc. apply arc_from_0. unfold PI2. lra. }
  assert (Hom : ocrMax 10 5 o o = o) by (unfold ocrMax; math_lra).
  assert (Him : icrMax 10 5 i i = i) by (unfold icrMax; math_lra).
  unfold buildPath.
  rewrite (emit_sector normalizeArcAngles shape 10 5 i i o o o i E C).
  - rewrite Ha, Hom, Him.
    rewrite outerRing_corners by (unfold e in *; lra).
    rewrite innerRing_corners by (unfold e in *; lra).
    cbn [app List.map snd arcRadius].
    unfold mathMin. rewrite !Rmin_left by lra. reflexivity.
  - unfold e. lra.
  - rewrite Ha. unfold PI2, e. lra.
  - rewrite Ha, Hom, Him. apply limitedMax_wide. lra.
Qed.

(** C5, on the half turn given as [r = 5], [r0 = 10] with the corner radius
    10%: the percentage is resolved against [r] and [r0] as given, not
    against the effective radii, so the outer fillets have radius 1/2 and
    the inner ones radius 1; with the radii exchanged the outer fillets have
    radius 1 and the inner ones radius 1/2.  The two sequences differ. *)
Lemma inverted_radii_change_percent_corners :
  List.map arcRadius (buildPath normalizeArcAngles [] invertedPercent)
  = [None; Some (1 / 2); Some 10; Some (1 / 2); None; Some 1; Some 5; Some 1; None]
  /\ List.map arcRadius (buildPath normalizeArcAngles [] (swapRadii invertedPercent))
     = [None; Some 1; Some 10; Some 1; None; Some (1 / 2); Some 5; Some (1 / 2); None]
  /\ buildPath normalizeArcAngles [] (swapRadii invertedPercent)
     <> buildPath normalizeArcAngles [] invertedPercent.
Proof.
  assert (H1 : List.map arcRadius (buildPath normalizeArcAngles [] invertedPercent)
               = [None; Some (1 / 2); Some 10; Some (1 / 2); None;
                  Some 1; Some 5; Some 1; None]).
  { rewrite (half_turn_arc_radii invertedPercent (10 / 100 * 10) (10 / 100 * 5));
      try reflexivity.
    - replace (10 / 100 * 5) with (1 / 2) by lra.
      replace (10 / 100 * 10) with 1 by lra. reflexivity.
    - apply effectiveRadii_inverted; simpl; lra.
    - unfold e. lra.
    - unfold e. lra. }
  assert (H2 : List.map arcRadius
                 (buildPath normalizeArcAngles [] (swapRadii invertedPercent))
               = [None; Some 1; Some 10; Some 1; None;
                  Some (1 / 2); Some 5; Some (1 / 2); None]).
  { rewrite (half_turn_arc_radii (swapRadii invertedPercent)
                                 (10 / 100 * 5) (10 / 100 * 10));
      try reflexivity.
    - replace (10 / 100 * 5) with (1 / 2) by lra.
      replace (10 / 100 * 10) with 1 by lra. reflexivity.
    - apply effectiveRadii_sorted; simpl; lra.
    - unfold e. lra.
    - unfold e. lra. }
  split; [exact H1 | split; [exact H2 |]].
  intros Heq. rewrite Heq, H1 in H2.
  inversion H2. lra.
Qed.

Lemma swapped_radii_same_path_witness :
  percentFree (cornerRadius quarterTurn) = true
  /\ buildPath normalizeArcAngles [] (swapRadii quarterTurn)
     = buildPath normalizeArcAngles [] quarterTurn.
Proof.
  split; [reflexivity |].
  exact (swapped_radii_same_path normalizeArcAngles [] quarterTurn eq_refl).
Defined.

(** * Further properties *)

(** ** The fillet circle *)


(** A root of the line-circle system, as the source writes it. *)
Lemma circle_line_root (dx dy s d r : R) :
  dx * dx + dy * dy > 0 ->
  d * d = r * r * (dx * dx + dy * dy) - s * s ->
  let px := (s * dy - dx * d) / (dx * dx + dy * dy) in
  let py := (- s * dx - dy * d) / (dx * dx + dy * dy) in
  px * px + py * py = r * r /\ px * dy - py * dx = s.
Proof.
  intros Hd2 Hd px py. unfold px, py. split.
  - transitivity ((s * s + d * d) / (dx * dx + dy * dy)); [field; lra |].
    rewrite Hd. field. lra.
  - field. lra.
Qed.

Section CornerTangentFacts.

Variables (x0 y0 x1 y1 radius cr : R) (clockwise : bool).

(** The two points of the edge differ, and the offset line meets the circle
    on which the centre of the fillet is sought. *)
Hypothesis distinct : (x0 - x1) * (x0 - x1) + (y0 - y1) * (y0 - y1) > 0.
Hypothesis meets : 0 <= cornerDiscriminant x0 y0 x1 y1 radius cr clockwise.

Lemma offset_length :
  let ct := computeCornerTangents x0 y0 x1 y1 radius cr clockwise in
  ct_x0 ct * ct_x0 ct + ct_y0 ct * ct_y0 ct = cr * cr.
Proof.
  clear meets. unfold computeCornerTangents. cbv zeta.
  destruct (_ >? _); cbn [ct_x0 ct_y0];
  set (L := mathSqrt _);
  assert (HL : L * L = (x0 - x1) * (x0 - x1) + (y0 - y1) * (y0 - y1))
    by (apply sqrt_sqrt; lra);
  assert (HL0 : L <> 0) by (intros Z; rewrite Z in HL; lra);
  (transitivity ((if clockwise then cr else - cr) * (if clockwise then cr else - cr)
                * ((x0 - x1) * (x0 - x1) + (y0 - y1) * (y0 - y1)) / (L * L));
   [field; exact HL0 | rewrite <- HL; destruct clockwise; field; exact HL0]).
Qed.

Lemma offset_perpendicular :
  let ct := computeCornerTangents x0 y0 x1 y1 radius cr clockwise in
  ct_x0 ct * (x1 - x0) + ct_y0 ct * (y1 - y0) = 0.
Proof.
  unfold computeCornerTangents. cbv zeta.
  destruct (_ >? _); cbn [ct_x0 ct_y0]; ring.
Qed.

Lemma centre_facts :
  let ct := computeCornerTangents x0 y0 x1 y1 radius cr clockwise in
  ct_cx ct * ct_cx ct + ct_cy ct * ct_cy ct = (radius - cr) * (radius - cr)
  /\ (ct_cx ct + ct_x0 ct - x0) * (y1 - y0)
     - (ct_cy ct + ct_y0 ct - y0) * (x1 - x0) = 0.
Proof.
  unfold computeCornerTangents. cbv zeta.
  set (L := mathSqrt _).
  set (lo := _ / L).
  set (DX := x1 + lo * (y0 - y1) - (x0 + lo * (y0 - y1))).
  set (DY := y1 + - lo * (x0 - x1) - (y0 + - lo * (x0 - x1))).
  set (S := (x0 + lo * (y0 - y1)) * (y1 + - lo * (x0 - x1))
            - (x1 + lo * (y0 - y1)) * (y0 + - lo * (x0 - x1))).
  set (D := (if DY <? 0 then -1 else 1) * mathSqrt _).
  assert (HD2 : DX * DX + DY * DY > 0).
  { replace (DX * DX + DY * DY)
      with ((x0 - x1) * (x0 - x1) + (y0 - y1) * (y0 - y1))
      by (unfold DX, DY; ring). exact distinct. }
  assert (HD : D * D = (radius - cr) * (radius - cr) * (DX * DX + DY * DY) - S * S).
  { unfold D.
    match goal with
    | |- context [mathSqrt ?m] =>
        assert (Hm : m = (radius - cr) * (radius - cr) * (DX * DX + DY * DY) - S * S)
    end.
    { unfold mathMax. apply Rmax_right. exact meets. }
    rewrite Hm.
    transitivity (mathSqrt ((radius - cr) * (radius - cr) * (DX * DX + DY * DY) - S * S)
                  * mathSqrt ((radius - cr) * (radius - cr) * (DX * DX + DY * DY) - S * S)).
    - destruct (DY <? 0); ring.
    - apply sqrt_sqrt. exact meets. }
  assert (HD' : (- D) * (- D)
                = (radius - cr) * (radius - cr) * (DX * DX + DY * DY) - S * S)
    by (rewrite <- HD; ring).
  pose proof (circle_line_root DX DY S D (radius - cr) HD2 HD) as [A1 A2].
  pose proof (circle_line_root DX DY S (- D) (radius - cr) HD2 HD') as [B1 B2].
  cbv zeta in A1, A2, B1, B2.
  replace (S * DY - DX * - D) with (S * DY + DX * D) in B1, B2 by ring.
  replace (- S * DX - DY * - D) with (- S * DX + DY * D) in B1, B2 by ring.
  assert (HS : S = (x0 + lo * (y0 - y1)) * DY - (y0 + - lo * (x0 - x1)) * DX)
    by (unfold S, DX, DY; ring).
  destruct (_ >? _); cbn [ct_cx ct_cy ct_x0 ct_y0]; (split; [assumption |]).
  - replace (y1 - y0) with DY by (unfold DY; ring).
    replace (x1 - x0) with DX by (unfold DX; ring).
    lra.
  - replace (y1 - y0) with DY by (unfold DY; ring).
    replace (x1 - x0) with DX by (unfold DX; ring).
    lra.
Qed.

Lemma second_offset :
  let ct := computeCornerTangents x0 y0 x1 y1 radius cr clockwise in
  ct_x1 ct = ct_cx ct * (radius / (radius - cr) - 1)
  /\ ct_y1 ct = ct_cy ct * (radius / (radius - cr) - 1).
Proof.
  unfold computeCornerTangents. cbv zeta.
  destruct (_ >? _); cbn [ct_cx ct_cy ct_x1 ct_y1]; split; reflexivity.
Qed.

End CornerTangentFacts.

(** On a straight edge of the sector, between the radii [a] and [b] at the
    angle [t], the discriminant only depends on the thickness and the radii. *)
Lemma radial_distinct (a b t : R) :
  a <> b ->
  (a * cos t - b * cos t) * (a * cos t - b * cos t)
  + (a * sin t - b * sin t) * (a * sin t - b * sin t) > 0.
Proof.
  intros Hab. pose proof (sin2_cos2 t) as H. unfold Rsqr in H.
  replace ((a * cos t - b * cos t) * (a * cos t - b * cos t)
           + (a * sin t - b * sin t) * (a * sin t - b * sin t))
    with ((a - b) * (a - b) * (sin t * sin t + cos t * cos t)) by ring.
  rewrite H, Rmult_1_r.
  assert (a - b <> 0) by lra. nra.
Qed.

Lemma radial_discriminant (a b t radius cr : R) (clockwise : bool) :
  a <> b ->
  cornerDiscriminant (a * cos t) (a * sin t) (b * cos t) (b * sin t)
                     radius cr clockwise
  = (a - b) * (a - b) * ((radius - cr) * (radius - cr) - cr * cr).
Proof.
  intros Hab. pose proof (radial_distinct a b t Hab) as Hpos.
  pose proof (sin2_cos2 t) as H. unfold Rsqr in H.
  unfold cornerDiscriminant. cbv zeta.
  set (L := mathSqrt _).
  assert (HL : L * L = (a - b) * (a - b)).
  { unfold L, mathSqrt. rewrite sqrt_sqrt by lra.
    replace ((a * cos t - b * cos t) * (a * cos t - b * cos t)
             + (a * sin t - b * sin t) * (a * sin t - b * sin t))
      with ((a - b) * (a - b) * (sin t * sin t + cos t * cos t)) by ring.
    rewrite H. ring. }
  assert (HL0 : L <> 0) by (intros Z; rewrite Z in HL; assert (a - b <> 0) by lra; nra).
  set (c := if clockwise then cr else - cr).
  assert (Hc : c * c = cr * cr) by (unfold c; destruct clockwise; ring).
  set (lo := c / L).
  assert (Hlo : lo * lo * ((a - b) * (a - b)) = cr * cr).
  { unfold lo. rewrite <- HL, <- Hc. field. exact HL0. }
  match goal with
  | |- ?r2 * ?d2 - ?s * ?s = _ =>
      replace d2 with ((a - b) * (a - b) * (sin t * sin t + cos t * cos t)) by ring;
      replace s with (- lo * ((a - b) * (a - b)) * (sin t * sin t + cos t * cos t)) by ring
  end.
  rewrite H, !Rmult_1_r.
  replace (- lo * ((a - b) * (a - b)) * (- lo * ((a - b) * (a - b))))
    with (lo * lo * ((a - b) * (a - b)) * ((a - b) * (a - b))) by ring.
  rewrite Hlo. ring.
Qed.

Lemma corner_centre_distance (a b t radius cr cx cy : R) (clockwise : bool) :
  a <> b ->
  0 <= (radius - cr) * (radius - cr) - cr * cr ->
  let ct := computeCornerTangents (a * cos t) (a * sin t) (b * cos t) (b * sin t)
                                  radius cr clockwise in
  (cx + ct_cx ct - cx) * (cx + ct_cx ct - cx)
  + (cy + ct_cy ct - cy) * (cy + ct_cy ct - cy)
  = (radius - cr) * (radius - cr).
Proof.
  intros Hab Hd ct.
  replace (cx + ct_cx ct - cx) with (ct_cx ct) by ring.
  replace (cy + ct_cy ct - cy) with (ct_cy ct) by ring.
  apply centre_facts.
  - apply radial_distinct. exact Hab.
  - rewrite radial_discriminant by exact Hab.
    apply Rmult_le_pos; [nra | exact Hd].
Qed.

Section TangencyFacts.

Variable nAA : R * R -> bool -> R * R.




End TangencyFacts.

(** X2: the fillet circle touches the edge it is built on.  The first tangent
    point, the centre moved by [(x0, y0)] of the result, lies on the line
    through the two given points, at the distance [|cr|] from the centre, and
    the radius drawn to it is perpendicular to that line. *)
Theorem fillet_touches_edge (x0 y0 x1 y1 radius cr : R) (clockwise : bool) :
  (x0 - x1) * (x0 - x1) + (y0 - y1) * (y0 - y1) > 0 ->
  0 <= cornerDiscriminant x0 y0 x1 y1 radius cr clockwise ->
  let ct := computeCornerTangents x0 y0 x1 y1 radius cr clockwise in
  let tx := ct_cx ct + ct_x0 ct in
  let ty := ct_cy ct + ct_y0 ct in
  (tx - x0) * (y1 - y0) - (ty - y0) * (x1 - x0) = 0
  /\ (tx - ct_cx ct) * (tx - ct_cx ct) + (ty - ct_cy ct) * (ty - ct_cy ct) = cr * cr
  /\ (tx - ct_cx ct) * (x1 - x0) + (ty - ct_cy ct) * (y1 - y0) = 0.
Proof.
  intros Hd Hm ct tx ty. unfold tx, ty.
  pose proof (centre_facts x0 y0 x1 y1 radius cr clockwise Hd Hm) as [_ H1].
  pose proof (offset_length x0 y0 x1 y1 radius cr clockwise Hd) as H2.
  pose proof (offset_perpendicular x0 y0 x1 y1 radius cr clockwise) as H3.
  cbv zeta in H1, H2, H3. fold ct in H1, H2, H3.
  split; [exact H1 | split].
  - replace (ct_cx ct + ct_x0 ct - ct_cx ct) with (ct_x0 ct) by ring.
    replace (ct_cy ct + ct_y0 ct - ct_cy ct) with (ct_y0 ct) by ring.
    exact H2.
  - replace (ct_cx ct + ct_x0 ct - ct_cx ct) with (ct_x0 ct) by ring.
    replace (ct_cy ct + ct_y0 ct - ct_cy ct) with (ct_y0 ct) by ring.
    exact H3.
Qed.

(** X3: the fillet circle touches the circle of radius [radius] around the
    origin.  Its centre lies at the distance [|radius - cr|] from the origin;
    the second tangent point, the centre moved by [(x1, y1)] of the result,
    lies on that circle, on the line from the origin through the centre, at
    the distance [|cr|] from the centre. *)
Theorem fillet_touches_ring (x0 y0 x1 y1 radius cr : R) (clockwise : bool) :
  (x0 - x1) * (x0 - x1) + (y0 - y1) * (y0 - y1) > 0 ->
  0 <= cornerDiscriminant x0 y0 x1 y1 radius cr clockwise ->
  radius - cr <> 0 ->
  let ct := computeCornerTangents x0 y0 x1 y1 radius cr clockwise in
  let tx := ct_cx ct + ct_x1 ct in
  let ty := ct_cy ct + ct_y1 ct in
  ct_cx ct * ct_cx ct + ct_cy ct * ct_cy ct = (radius - cr) * (radius - cr)
  /\ tx * tx + ty * ty = radius * radius
  /\ tx * ct_cy ct - ty * ct_cx ct = 0
  /\ (tx - ct_cx ct) * (tx - ct_cx ct) + (ty - ct_cy ct) * (ty - ct_cy ct) = cr * cr.
Proof.
  intros Hd Hm Hr ct tx ty. unfold tx, ty.
  pose proof (centre_facts x0 y0 x1 y1 radius cr clockwise Hd Hm) as [Hc _].
  pose proof (second_offset x0 y0 x1 y1 radius cr clockwise) as [Hx Hy].
  cbv zeta in Hc, Hx, Hy. fold ct in Hc, Hx, Hy.
  rewrite Hx, Hy.
  set (u := ct_cx ct) in *. set (v := ct_cy ct) in *.
  split; [exact Hc | split; [| split]].
  - transitivity ((u * u + v * v) * (radius / (radius - cr)) * (radius / (radius - cr)));
      [ring |]. rewrite Hc. field. exact Hr.
  - ring.
  - transitivity ((u * u + v * v) * (radius / (radius - cr) - 1)
                  * (radius / (radius - cr) - 1)); [ring |].
    rewrite Hc. field. exact Hr.
Qed.

Lemma fillet_touches_edge_witness :
  (4 * cos 1 - 10 * cos 1) * (4 * cos 1 - 10 * cos 1)
  + (4 * sin 1 - 10 * sin 1) * (4 * sin 1 - 10 * sin 1) > 0
  /\ 0 <= cornerDiscriminant (4 * cos 1) (4 * sin 1) (10 * cos 1) (10 * sin 1) 10 2 true
  /\ (ct_cx sampleCorner + ct_x0 sampleCorner - 4 * cos 1) * (10 * sin 1 - 4 * sin 1)
     - (ct_cy sampleCorner + ct_y0 sampleCorner - 4 * sin 1) * (10 * cos 1 - 4 * cos 1)
     = 0.
Proof.
  assert (Hd : (4 * cos 1 - 10 * cos 1) * (4 * cos 1 - 10 * cos 1)
               + (4 * sin 1 - 10 * sin 1) * (4 * sin 1 - 10 * sin 1) > 0)
    by (apply radial_distinct; lra).
  assert (Hm : 0 <= cornerDiscriminant (4 * cos 1) (4 * sin 1)
                                       (10 * cos 1) (10 * sin 1) 10 2 true)
    by (rewrite radial_discriminant by lra; lra).
  split; [exact Hd | split; [exact Hm |]].
  exact (proj1 (fillet_touches_edge _ _ _ _ 10 2 true Hd Hm)).
Defined.

Lemma fillet_touches_ring_witness :
  (4 * cos 1 - 10 * cos 1) * (4 * cos 1 - 10 * cos 1)
  + (4 * sin 1 - 10 * sin 1) * (4 * sin 1 - 10 * sin 1) > 0
  /\ 0 <= cornerDiscriminant (4 * cos 1) (4 * sin 1) (10 * cos 1) (10 * sin 1) 10 2 true
  /\ 10 - 2 <> 0
  /\ ct_cx sampleCorner * ct_cx sampleCorner + ct_cy sampleCorner * ct_cy sampleCorner
     = (10 - 2) * (10 - 2).
Proof.
  assert (Hd : (4 * cos 1 - 10 * cos 1) * (4 * cos 1 - 10 * cos 1)
               + (4 * sin 1 - 10 * sin 1) * (4 * sin 1 - 10 * sin 1) > 0)
    by (apply radial_distinct; lra).
  assert (Hm : 0 <= cornerDiscriminant (4 * cos 1) (4 * sin 1)
                                       (10 * cos 1) (10 * sin 1) 10 2 true)
    by (rewrite radial_discriminant by lra; lra).
  assert (Hr : 10 - 2 <> 0) by lra.
  split; [exact Hd | split; [exact Hm | split; [exact Hr |]]].
  exact (proj1 (fillet_touches_ring _ _ _ _ 10 2 true Hd Hm Hr)).
Defined.

(** ** Fillets in the emitted path *)

Section InnerTangencyFacts.

Variable nAA : R * R -> bool -> R * R.

Lemma innerRing_touches_ring
    (cx cy radius innerRadius startAngle endAngle : R) (clockwise : bool)
    (arc icrStart icrEnd im li : R) :
  0 <= innerRadius <= radius ->
  li <= halfRd radius innerRadius ->
  0 <= icrStart -> 0 <= icrEnd ->
  Forall (centredAtDistance cx cy (fun rad => innerRadius + rad) isInnerCornerFillet)
         (innerRing cx cy radius innerRadius startAngle endAngle clockwise
                    arc icrStart icrEnd im li).
Proof.
  intros Hin Hli Hs He. unfold innerRing. pose proof e_pos as Hepos.
  destruct (innerRadius >? e) eqn:Hi; destruct (arc >? e); cbn [negb orb];
    [destruct (li >? e) eqn:Hgt; [destruct (li <? im) |] | | |];
    repeat (apply Forall_cons; [unfold centredAtDistance; cbn [fst snd isInnerCornerFillet] |]);
    try apply Forall_nil; trivial;
    apply Rgtb_true in Hgt; apply Rgtb_true in Hi; unfold mathCos, mathSin.
  - replace (innerRadius + mathMin icrEnd li)
      with (innerRadius - - mathMin icrEnd li) by ring.
    apply corner_centre_distance.
    + revert Hli Hgt. math_lra.
    + assert (0 <= mathMin icrEnd li) by (unfold mathMin; apply Rmin_glb; lra).
      nra.
  - replace (innerRadius + mathMin icrStart li)
      with (innerRadius - - mathMin icrStart li) by ring.
    apply corner_centre_distance.
    + revert Hli Hgt. math_lra.
    + assert (0 <= mathMin icrStart li) by (unfold mathMin; apply Rmin_glb; lra).
      nra.
Qed.

Lemma outerRing_no_inner_corner
    (cx cy radius innerRadius startAngle endAngle : R) (clockwise : bool)
    (arc ocrStart ocrEnd om lo : R) (dist : R -> R) :
  Forall (centredAtDistance cx cy dist isInnerCornerFillet)
         (outerRing cx cy radius innerRadius startAngle endAngle clockwise
                    arc ocrStart ocrEnd om lo).
Proof.
  unfold outerRing.
  destruct (arc >? e); cbn [negb];
    [destruct (lo >? e); [destruct (lo <? om) |] |];
    repeat (apply Forall_cons; [exact I |]); apply Forall_nil.
Qed.

(** X5: when the two inner corner radii requested are not negative, the circle of
    every fillet drawn at a corner of the inner ring that is not merged with
    the other touches the inner circle from outside: its centre lies at the
    distance [innerRadius + cr] from the centre of the sector, [cr] being the
    radius of the fillet arc. *)
Theorem inner_fillets_touch_the_ring
    (shape : Shape) (radius innerRadius icrStart icrEnd ocrStart ocrEnd : R) :
  effectiveRadii (r shape) (r0 shape) = Some (radius, innerRadius) ->
  cornerRadii shape = (icrStart, icrEnd, ocrStart, ocrEnd) ->
  0 <= icrStart -> 0 <= icrEnd ->
  Forall (centredAtDistance (cx shape) (cy shape) (fun rad => innerRadius + rad)
                            isInnerCornerFillet)
         (emit nAA shape).
Proof.
  intros E C Hs He. unfold emit. rewrite E, C.
  pose proof (effectiveRadii_Some _ _ _ _ E) as (_ & _ & Hr & Hin).
  apply Forall_app. split; [| repeat constructor].
  destruct (radius >? e); cbn [negb]; [| repeat constructor].
  destruct (arc nAA (startAngle shape) (endAngle shape) (truthy (clockwise shape)) >? PI2 - e).
  - simpl. destruct (innerRadius >? e); repeat constructor.
  - destruct (limitedMax _ _ _ _ _ _ _) as [lo li] eqn:L.
    apply limitedMax_le in L. destruct L as [_ Li].
    pose proof (icrMax_le_halfRd radius innerRadius icrStart icrEnd).
    apply Forall_app. split.
    + apply outerRing_no_inner_corner.
    + apply innerRing_touches_ring; try assumption. lra.
Qed.

End InnerTangencyFacts.


Lemma inner_fillets_touch_the_ring_witness :
  effectiveRadii (r invertedPercent) (r0 invertedPercent) = Some (10, 5)
  /\ cornerRadii invertedPercent
     = (10 / 100 * 10, 10 / 100 * 10, 10 / 100 * 5, 10 / 100 * 5)
  /\ 0 <= 10 / 100 * 10
  /\ Forall (centredAtDistance (cx invertedPercent) (cy invertedPercent)
                               (fun rad => 5 + rad) isInnerCornerFillet)
            (emit normalizeArcAngles invertedPercent).
Proof.
  assert (E : effectiveRadii (r invertedPercent) (r0 invertedPercent) = Some (10, 5))
    by (apply effectiveRadii_inverted; simpl; lra).
  assert (H : 0 <= 10 / 100 * 10) by lra.
  split; [exact E | split; [reflexivity | split; [exact H |]]].
  exact (inner_fillets_touch_the_ring normalizeArcAngles invertedPercent 10 5
           _ _ _ _ E eq_refl H H).
Defined.

(** ** The stricter bound *)

(** X6: when the two straight edges cross, the stricter bounds are the radii of
    the circles inscribed in the wedge between them.  With [g] the angle
    between the edges, the outer bound [rho] satisfies
    [rho = (radius - rho) * sin (g / 2)]: a circle of radius [rho] whose
    centre lies on the bisector at the distance [radius - rho] from the centre
    of the sector touches the outer circle and both edges.  The inner bound
    [rhi] satisfies [rhi = (innerRadius + rhi) * sin (g / 2)]: that circle
    touches the inner circle from outside and both edges. *)
Theorem stricter_bound_is_inscribed
    (radius innerRadius startAngle endAngle arc om im : R) :
  0 < radius ->
  om > e \/ im > e ->
  arc < PI ->
  (let t := (radius - innerRadius) * (radius - innerRadius)
            * sin (endAngle - startAngle) in e <= t * t) ->
  let g := acos (cos (endAngle - startAngle)) in
  let rho := radius / (1 / sin (g / 2) + 1) in
  let rhi := innerRadius / (1 / sin (g / 2) - 1) in
  0 < g < PI
  /\ limitedMax radius innerRadius startAngle endAngle arc om im
     = (mathMin om rho, mathMin im rhi)
  /\ rho = (radius - rho) * sin (g / 2)
  /\ rhi = (innerRadius + rhi) * sin (g / 2).
Proof.
  intros Hr Hcr Harc Hdet g rho rhi.
  pose proof e_pos as Hepos. pose proof PI_gt_2 as Hpi.
  assert (Hsin : sin (endAngle - startAngle) <> 0).
  { intros Z. cbv zeta in Hdet. rewrite Z in Hdet.
    rewrite Rmult_0_r, Rmult_0_l in Hdet. lra. }
  assert (Hcos : -1 < cos (endAngle - startAngle) < 1).
  { pose proof (sin2_cos2 (endAngle - startAngle)) as H. unfold Rsqr in H.
    assert (0 < sin (endAngle - startAngle) * sin (endAngle - startAngle)) by nra.
    split; nra. }
  assert (Hg : 0 < g < PI) by (apply acos_bound_lt; exact Hcos).
  assert (Hs : 0 < sin (g / 2) < 1) by (apply sin_between_0_1; lra).
  split; [exact Hg | split; [| split]].
  - exact (limitedMax_crossing _ _ _ _ _ _ _ Hr Hcr Harc Hdet).
  - unfold rho. field. lra.
  - unfold rhi. field. lra.
Qed.

Lemma stricter_bound_is_inscribed_witness :
  0 < 100
  /\ (50 > e \/ 50 > e)
  /\ PI / 2 < PI
  /\ e <= ((100 - 0) * (100 - 0) * sin (PI / 2 - 0))
          * ((100 - 0) * (100 - 0) * sin (PI / 2 - 0))
  /\ 0 < acos (cos (PI / 2 - 0)) < PI.
Proof.
  pose proof PI_gt_2 as Hpi.
  assert (H1 : 0 < 100) by lra.
  assert (H2 : 50 > e \/ 50 > e) by (left; unfold e; lra).
  assert (H3 : PI / 2 < PI) by lra.
  assert (H4 : e <= ((100 - 0) * (100 - 0) * sin (PI / 2 - 0))
                    * ((100 - 0) * (100 - 0) * sin (PI / 2 - 0))).
  { replace (PI / 2 - 0) with (PI / 2) by ring. rewrite sin_PI2. unfold e. lra. }
  split; [exact H1 | split; [exact H2 | split; [exact H3 | split; [exact H4 |]]]].
  exact (proj1 (stricter_bound_is_inscribed 100 0 0 (PI / 2) (PI / 2) 50 50
                  H1 H2 H3 H4)).
Defined.

(** ** The line-intersection primitive *)

(** X1: a point the primitive returns lies on the line through the first two
    points and on the line through the last two, and it is the only point
    that does. *)
Theorem intersect_is_the_crossing (x0 y0 x1 y1 x2 y2 x3 y3 px py : R) :
  intersect x0 y0 x1 y1 x2 y2 x3 y3 = Some (px, py) ->
  (px - x0) * (y1 - y0) - (py - y0) * (x1 - x0) = 0
  /\ (px - x2) * (y3 - y2) - (py - y2) * (x3 - x2) = 0
  /\ forall qx qy : R,
       (qx - x0) * (y1 - y0) - (qy - y0) * (x1 - x0) = 0 ->
       (qx - x2) * (y3 - y2) - (qy - y2) * (x3 - x2) = 0 ->
       qx = px /\ qy = py.
Proof.
  unfold intersect. cbv zeta.
  destruct (_ <? e) eqn:H; [discriminate |].
  apply Rltb_false in H. intros I. injection I as Hx Hy.
  pose proof e_pos as He.
  set (t := (y3 - y2) * (x1 - x0) - (x3 - x2) * (y1 - y0)) in *.
  assert (Ht : t <> 0) by (intros Z; rewrite Z in H; lra).
  assert (L1 : (px - x0) * (y1 - y0) - (py - y0) * (x1 - x0) = 0)
    by (rewrite <- Hx, <- Hy; ring).
  assert (L2 : (px - x2) * (y3 - y2) - (py - y2) * (x3 - x2) = 0)
    by (rewrite <- Hx, <- Hy; unfold t; field; exact Ht).
  split; [exact L1 | split; [exact L2 |]].
  intros qx qy Q1 Q2.
  assert (U : (qx - px) * t = 0).
  { unfold t.
    replace ((qx - px) * ((y3 - y2) * (x1 - x0) - (x3 - x2) * (y1 - y0)))
      with (((qx - x2) * (y3 - y2) - (qy - y2) * (x3 - x2)) * (x1 - x0)
            - ((px - x2) * (y3 - y2) - (py - y2) * (x3 - x2)) * (x1 - x0)
            - ((qx - x0) * (y1 - y0) - (qy - y0) * (x1 - x0)) * (x3 - x2)
            + ((px - x0) * (y1 - y0) - (py - y0) * (x1 - x0)) * (x3 - x2))
      by ring.
    rewrite Q1, Q2, L1, L2. ring. }
  assert (V : (qy - py) * t = 0).
  { unfold t.
    replace ((qy - py) * ((y3 - y2) * (x1 - x0) - (x3 - x2) * (y1 - y0)))
      with (((qx - x2) * (y3 - y2) - (qy - y2) * (x3 - x2)) * (y1 - y0)
            - ((px - x2) * (y3 - y2) - (py - y2) * (x3 - x2)) * (y1 - y0)
            - ((qx - x0) * (y1 - y0) - (qy - y0) * (x1 - x0)) * (y3 - y2)
            + ((px - x0) * (y1 - y0) - (py - y0) * (x1 - x0)) * (y3 - y2))
      by ring.
    rewrite Q1, Q2, L1, L2. ring. }
  apply Rmult_integral in U. apply Rmult_integral in V.
  destruct U as [U | U]; [| contradiction].
  destruct V as [V | V]; [| contradiction].
  split; lra.
Qed.

Lemma intersect_is_the_crossing_witness :
  intersect 0 0 2 0 1 (-1) 1 1 = Some (1, 0)
  /\ (1 - 0) * (0 - 0) - (0 - 0) * (2 - 0) = 0.
Proof.
  assert (H : intersect 0 0 2 0 1 (-1) 1 1 = Some (1, 0)).
  { unfold intersect. cbv zeta.
    assert (E : (((1 - -1) * (2 - 0) - (1 - 1) * (0 - 0))
                 * ((1 - -1) * (2 - 0) - (1 - 1) * (0 - 0)) <? e) = false)
      by (apply Rltb_false; unfold e; lra).
    rewrite E. f_equal. f_equal; field. }
  split; [exact H |].
  exact (proj1 (intersect_is_the_crossing 0 0 2 0 1 (-1) 1 1 1 0 H)).
Defined.

(** ** The resolver of corner radii *)


(** X8: of an array of five entries or more only the first counts: it stands for
    the two inner corners, the outer corners get 0, as for an array of one
    entry. *)
Theorem long_array_keeps_first_entry (hd : crValue) (tl : list crValue) (r0 r : R) :
  (4 <= length tl)%nat ->
  normalizeCornerRadius (CrArray hd tl) r0 r
  = [parsePercent hd r0; parsePercent hd r0; 0; 0].
Proof.
  intros H.
  destruct tl as [|a [|b [|c [|d tl]]]]; simpl in H; try lia.
  reflexivity.
Qed.

Lemma long_array_keeps_first_entry_witness :
  (4 <= length [CrNum 2; CrNum 3; CrNum 4; CrNum 5])%nat
  /\ normalizeCornerRadius (CrArray (CrNum 1) [CrNum 2; CrNum 3; CrNum 4; CrNum 5]) 5 10
     = [1; 1; 0; 0].
Proof.
  assert (H : (4 <= length [CrNum 2; CrNum 3; CrNum 4; CrNum 5])%nat)
    by (simpl; lia).
  split; [exact H |].
  exact (long_array_keeps_first_entry (CrNum 1) _ 5 10 H).
Defined.

(** ** The effective radii *)

(** X9: the builder works with an outer radius that is positive and an inner
    radius between 0 and the outer one: the larger and the smaller of [r] and
    [r0], each raised to 0; it returns early exactly when neither is positive;
    and the order in which the two are given does not matter. *)
Theorem effective_radii_ordered (r r0 : R) :
  match effectiveRadii r r0 with
  | Some (radius, innerRadius) =>
      radius = Rmax (Rmax r 0) (Rmax r0 0)
      /\ innerRadius = Rmin (Rmax r 0) (Rmax r0 0)
      /\ 0 < radius /\ 0 <= innerRadius <= radius
  | None => r <= 0 /\ r0 <= 0
  end
  /\ effectiveRadii r0 r = effectiveRadii r r0.
Proof.
  split; [| apply effectiveRadii_sym].
  destruct (effectiveRadii r r0) as [[radius innerRadius]|] eqn:E.
  - apply effectiveRadii_Some. exact E.
  - apply effectiveRadii_None in E. revert E. math_lra.
Qed.

(** ** Paths without corners, moved paths, and the size of a path *)

Section PathFacts.

Variable nAA : R * R -> bool -> R * R.

(** X10: when none of the four resolved corner radii exceeds [e] (a corner radius
    of 0, say), no command comes from the branches that draw corners: the
    outer boundary is a MoveTo alone or with one arc at the outer radius, the
    inner one a LineTo or one arc at the inner radius. *)
Theorem small_corner_radii_no_fillet
    (shape : Shape) (icrStart icrEnd ocrStart ocrEnd : R) :
  cornerRadii shape = (icrStart, icrEnd, ocrStart, ocrEnd) ->
  icrStart <= e -> icrEnd <= e -> ocrStart <= e -> ocrEnd <= e ->
  existsb isCornerSite (List.map fst (emit nAA shape)) = false.
Proof.
  intros C H1 H2 H3 H4. unfold emit. rewrite C.
  destruct (effectiveRadii (r shape) (r0 shape)) as [[radius innerRadius]|];
    [| reflexivity].
  rewrite map_app, existsb_app. cbn [List.map fst existsb isCornerSite].
  rewrite !orb_false_r.
  destruct (radius >? e); cbn [negb]; [| reflexivity].
  destruct (arc nAA (startAngle shape) (endAngle shape) (truthy (clockwise shape)) >? PI2 - e).
  - cbn. destruct (innerRadius >? e); reflexivity.
  - assert (Ho : ocrMax radius innerRadius ocrStart ocrEnd <= e)
      by (unfold ocrMax; math_lra).
    assert (Hi : icrMax radius innerRadius icrStart icrEnd <= e)
      by (unfold icrMax; math_lra).
    rewrite (limitedMax_no_corner _ _ _ _ _ _ _ Ho Hi).
    apply Rgtb_false in Ho, Hi.
    unfold outerRing, innerRing. rewrite Ho, Hi.
    destruct (arc nAA _ _ _ >? e); destruct (innerRadius >? e); reflexivity.
Qed.

Lemma translate_outerRing
    (dx dy cx cy radius innerRadius startAngle endAngle : R) (clockwise : bool)
    (arc ocrStart ocrEnd om lo : R) :
  List.map snd (outerRing (cx + dx) (cy + dy) radius innerRadius startAngle endAngle
                          clockwise arc ocrStart ocrEnd om lo)
  = List.map (translate dx dy)
             (List.map snd (outerRing cx cy radius innerRadius startAngle endAngle
                                      clockwise arc ocrStart ocrEnd om lo)).
Proof.
  unfold outerRing.
  destruct (arc >? e); cbn [negb];
    [destruct (lo >? e); [destruct (lo <? om) |] |];
    cbn [List.map snd translate];
    repeat match goal with
           | |- @eq (list PathCommand) (_ :: _) (_ :: _) => apply f_equal2
           | |- @eq (list PathCommand) [] [] => reflexivity
           | |- MoveTo _ _ = MoveTo _ _ => apply f_equal2
           | |- Arc _ _ ?a ?b ?c ?d = Arc _ _ ?a ?b ?c ?d =>
               apply (f_equal2 (fun u v => Arc u v a b c d))
           | |- @eq R _ _ => ring
           end.
Qed.

Lemma translate_innerRing
    (dx dy cx cy radius innerRadius startAngle endAngle : R) (clockwise : bool)
    (arc icrStart icrEnd im li : R) :
  List.map snd (innerRing (cx + dx) (cy + dy) radius innerRadius startAngle endAngle
                          clockwise arc icrStart icrEnd im li)
  = List.map (translate dx dy)
             (List.map snd (innerRing cx cy radius innerRadius startAngle endAngle
                                      clockwise arc icrStart icrEnd im li)).
Proof.
  unfold innerRing.
  destruct (negb (innerRadius >? e) || negb (arc >? e));
    [| destruct (li >? e); [destruct (li <? im) |]];
    cbn [List.map snd translate];
    repeat match goal with
           | |- @eq (list PathCommand) (_ :: _) (_ :: _) => apply f_equal2
           | |- @eq (list PathCommand) [] [] => reflexivity
           | |- LineTo _ _ = LineTo _ _ => apply f_equal2
           | |- Arc _ _ ?a ?b ?c ?d = Arc _ _ ?a ?b ?c ?d =>
               apply (f_equal2 (fun u v => Arc u v a b c d))
           | |- @eq R _ _ => ring
           end.
Qed.

(** X11: moving the centre of a descriptor moves the path: every point and every
    centre of an arc is moved by as much, radii, angles and windings are
    kept, and so is the number of commands. *)
Theorem moved_centre_translates_path (dx dy : R) (shape : Shape) :
  buildPath nAA [] (moveCentre dx dy shape)
  = List.map (translate dx dy) (buildPath nAA [] shape).
Proof.
  unfold buildPath, emit, cornerRadii. cbn [app].
  cbn [moveCentre cx cy r r0 startAngle endAngle clockwise cornerRadius].
  destruct (effectiveRadii (r shape) (r0 shape)) as [[radius innerRadius]|];
    [| reflexivity].
  rewrite !map_app. cbn [List.map snd translate]. f_equal.
  destruct (radius >? e); cbn [negb].
  - destruct (arc nAA (startAngle shape) (endAngle shape) (truthy (clockwise shape)) >? PI2 - e).
    + unfold calcCircleCenter.
      destruct (innerRadius >? e); cbn [List.map snd translate app];
        repeat match goal with
               | |- @eq (list PathCommand) (_ :: _) (_ :: _) => apply f_equal2
               | |- @eq (list PathCommand) [] [] => reflexivity
               | |- MoveTo _ _ = MoveTo _ _ => apply f_equal2
               | |- Arc _ _ ?a ?b ?c ?d = Arc _ _ ?a ?b ?c ?d => reflexivity
               | |- @eq R _ _ => ring
               end.
    + destruct (limitedMax _ _ _ _ _ _ _) as [lo li].
      rewrite !map_app. f_equal.
      * apply translate_outerRing.
      * apply translate_innerRing.
  - reflexivity.
Qed.

End PathFacts.

Lemma small_corner_radii_no_fillet_witness :
  cornerRadii almostFullTurn = (0, 0, 0, 0)
  /\ 0 <= e
  /\ existsb isCornerSite (List.map fst (emit normalizeArcAngles almostFullTurn))
     = false.
Proof.
  assert (H : 0 <= e) by (unfold e; lra).
  split; [reflexivity | split; [exact H |]].
  exact (small_corner_radii_no_fillet normalizeArcAngles almostFullTurn 0 0 0 0
           eq_refl H H H H).
Defined.

Section CountFacts.

Variable nAA : R * R -> bool -> R * R.




End CountFacts.

(** ** The view box *)

(** X13: for a view box and a viewport of positive size, the scale is positive and
    fills the viewport in one direction at least; a point of the view box,
    scaled and then moved by [(x, y)] of the result, lands in the viewport;
    and the centre of the view box lands on the centre of the viewport. *)
Theorem viewbox_fits_viewport (vb : RectLike) (width height : R) :
  0 < rect_width vb -> 0 < rect_height vb -> 0 < width -> 0 < height ->
  let t := makeViewBoxTransform vb width height in
  0 < vt_scale t
  /\ (vt_scale t * rect_width vb = width \/ vt_scale t * rect_height vb = height)
  /\ (rect_x vb + rect_width vb / 2) * vt_scale t + vt_x t = width / 2
  /\ (rect_y vb + rect_height vb / 2) * vt_scale t + vt_y t = height / 2
  /\ forall px py : R,
       rect_x vb <= px <= rect_x vb + rect_width vb ->
       rect_y vb <= py <= rect_y vb + rect_height vb ->
       0 <= px * vt_scale t + vt_x t <= width
       /\ 0 <= py * vt_scale t + vt_y t <= height.
Proof.
  intros Hvw Hvh Hw Hh t. unfold t, makeViewBoxTransform. cbn [vt_scale vt_x vt_y].
  destruct vb as [vx vy vw vh]. cbn [rect_x rect_y rect_width rect_height] in *.
  set (s := mathMin (width / vw) (height / vh)).
  assert (Hsx : s * vw <= width).
  { apply (Rmult_le_reg_r (/ vw)); [apply Rinv_0_lt_compat; lra |].
    rewrite Rmult_assoc, Rinv_r, Rmult_1_r by lra. apply Rmin_l. }
  assert (Hsy : s * vh <= height).
  { apply (Rmult_le_reg_r (/ vh)); [apply Rinv_0_lt_compat; lra |].
    rewrite Rmult_assoc, Rinv_r, Rmult_1_r by lra. apply Rmin_r. }
  assert (Hs : 0 < s).
  { unfold s, mathMin. apply Rmin_glb_lt; apply Rdiv_lt_0_compat; lra. }
  split; [exact Hs | split; [| split; [ring | split; [ring |]]]].
  - unfold s, mathMin, Rmin. destruct (Rle_dec _ _); [left | right]; field; lra.
  - intros px py Hx Hy. split; split; nra.
Qed.

Lemma viewbox_fits_viewport_witness :
  0 < rect_width (mkRectLike 10 20 200 100)
  /\ 0 < rect_height (mkRectLike 10 20 200 100)
  /\ 0 < 50 /\ 0 < 50
  /\ 0 < vt_scale (makeViewBoxTransform (mkRectLike 10 20 200 100) 50 50).
Proof.
  assert (H1 : 0 < rect_width (mkRectLike 10 20 200 100)) by (simpl; lra).
  assert (H2 : 0 < rect_height (mkRectLike 10 20 200 100)) by (simpl; lra).
  assert (H3 : 0 < 50) by lra.
  split; [exact H1 | split; [exact H2 | split; [exact H3 | split; [exact H3 |]]]].
  exact (proj1 (viewbox_fits_viewport (mkRectLike 10 20 200 100) 50 50 H1 H2 H3 H3)).
Defined.
